(** * motors_elmo_ds402: the protocol orchestrator [Controller]

    A shallow embedding of [src/Controller.cpp] (and of the declarations of
    [Controller.hpp]) together with the properties of its specification.

    - C++ integers are [Z] with the wrap-around of their width written out.
    - C++ [double] is Rocq's primitive binary64 [float].
    - C++ exceptions are the left summand of [Exc]; a thrown exception is
      represented by the error alone (no property below concerns the state of
      the object after a throw).
    - The object dictionary of the CANopen engine is a finite map from
      [(index, subindex)] to the last raw value. *)

From Stdlib Require Import ZArith Lia Bool List.
From Stdlib Require Import Floats.
From Stdlib Require Import String.
From stdpp Require Import gmap.
Import ListNotations.

Local Open Scope Z_scope.

(** ** Native scalar kinds of the object dictionary *)

Inductive IntKind := I8 | I16 | I32 | I64 | U8 | U16 | U32 | U64.

Definition bits (k : IntKind) : Z :=
  match k with
  | I8 | U8 => 8
  | I16 | U16 => 16
  | I32 | U32 => 32
  | I64 | U64 => 64
  end.

Definition is_signed (k : IntKind) : bool :=
  match k with
  | I8 | I16 | I32 | I64 => true
  | _ => false
  end.

(** [sizeof(T)] in bytes. *)
Definition sizeof (k : IntKind) : Z := bits k / 8.

Definition min_int (k : IntKind) : Z :=
  if is_signed k then - 2 ^ (bits k - 1) else 0.

Definition max_int (k : IntKind) : Z :=
  if is_signed k then 2 ^ (bits k - 1) - 1 else 2 ^ bits k - 1.

Definition in_range (k : IntKind) (z : Z) : bool :=
  (min_int k <=? z) && (z <=? max_int k).

(** Conversion of an integer to the kind [k] (two's complement wrap-around). *)
Definition wrap (k : IntKind) (z : Z) : Z :=
  if is_signed k
  then (z + 2 ^ (bits k - 1)) mod 2 ^ bits k - 2 ^ (bits k - 1)
  else z mod 2 ^ bits k.

(** ** Errors *)

(** The exceptions [Controller.cpp] throws or lets through, and the outcome
    of an operation C++ leaves undefined. *)
Inductive error :=
  | LogicError          (* std::logic_error: a precondition is not met *)
  | OutOfRange          (* std::out_of_range *)
  | InvalidArgument     (* std::invalid_argument *)
  | ObjectNotRead       (* canopen_master::ObjectNotRead *)
  | UndefinedBehaviour. (* out-of-range float-to-integer cast, [v[0]] on an empty vector *)

Definition Exc (A : Type) : Type := error + A.

Definition ok {A} (a : A) : Exc A := inr a.
Definition throw {A} (e : error) : Exc A := inl e.

Definition bind {A B} (m : Exc A) (f : A -> Exc B) : Exc B :=
  match m with
  | inl e => inl e
  | inr a => f a
  end.

Notation "'let*' x ':=' m 'in' k" := (bind m (fun x => k))
  (at level 10, x name, m at level 100, k at level 200).

(** ** Doubles *)

(** [static_cast<double>(z)] for an integer [z]: the nearest binary64. *)
Definition double_of_Z (z : Z) : float :=
  SF2Prim (binary_normalize prec emax z 0 false).

(** The integer part of a double (rounding toward zero); [None] for NaN and
    the infinities. *)
Definition trunc (f : float) : option Z :=
  match Prim2SF f with
  | S754_zero _ => Some 0
  | S754_finite s m e =>
      Some (cond_Zopp s (if 0 <=? e then Z.pos m * 2 ^ e else Z.pos m / 2 ^ (- e)))
  | _ => None
  end.

(** [static_cast<T>(f)] for a double [f] and an integer kind: defined only
    when the truncated value is representable. *)
Definition double_to_int (k : IntKind) (f : float) : Exc Z :=
  match trunc f with
  | Some z => if in_range k z then ok z else throw UndefinedBehaviour
  | None => throw UndefinedBehaviour
  end.

(** [base::unknown<double>()], [base::unset<double>()], [base::isUnknown] and
    [base::infinity<double>()] of the base-types library. *)
Definition unknown : float := nan.
Definition unset : float := nan.
Definition isUnknown (f : float) : bool := is_nan f.
Definition isUnset (f : float) : bool := is_nan f.

Definition infinity : float := PrimFloat.infinity.

(** ** The object descriptors used by the controller *)

(** One constructor per descriptor type of [Objects.hpp] that
    [Controller.cpp] names. *)
Inductive Object :=
  | CANControllerStatus
  | StatusWord
  | ModesOfOperation
  | PositionEncoderResolutionNum
  | PositionEncoderResolutionDen
  | VelocityEncoderResolutionNum
  | VelocityEncoderResolutionDen
  | AccelerationFactorNum
  | AccelerationFactorDen
  | GearRatioNum
  | GearRatioDen
  | FeedConstantNum
  | FeedConstantDen
  | VelocityFactorNum
  | VelocityFactorDen
  | MotorRatedCurrent
  | MotorRatedTorque
  | PositionActualInternalValue
  | VelocityActualValue
  | CurrentActualValue
  | SoftwarePositionLimitMin
  | SoftwarePositionLimitMax
  | MaxMotorSpeed
  | MaxAcceleration
  | MaxDeceleration
  | MaxCurrent
  | TargetPosition
  | TargetVelocity
  | TargetTorque.

(** The constants of [Objects.hpp] and [Update.hpp]. These headers are not
    among the sources, so the controller is verified for every catalogue:
    the identity, native kind and group mask of each descriptor, and the
    group bits the controller tests. *)
Class Catalogue := {
  OBJECT_ID : Object -> Z;
  OBJECT_SUB_ID : Object -> Z;
  OBJECT_TYPE : Object -> IntKind;
  UPDATE_ID : Object -> Z;
  Heartbeat_UPDATE_ID : Z;
  UPDATE_FACTORS : Z;
  UPDATE_JOINT_POSITION : Z;
  UPDATE_JOINT_VELOCITY : Z;
  UPDATE_JOINT_CURRENT : Z
}.

(** ** Factors *)

Module Factors.

(** Modelled from the spec: [Factors.hpp] and [Factors.cpp] are not among the
    sources. The nine settable fields are the ones the spec lists and
    [Controller.cpp] assigns; the ratios hold the raw integers of the drive.
    [positionNumerator] and [positionDenominator] stand for the state that
    [update()] caches. Defaults are the identity ratios, an unknown rated
    torque and current, and a scale of 1. *)
Record t := {
  encoderTicks : Z;
  encoderRevolutions : Z;
  gearMotorShaftRevolutions : Z;
  gearDrivingShaftRevolutions : Z;
  feedLength : Z;
  feedDrivingShaftRevolutions : Z;
  ratedTorque : float;
  ratedCurrent : float;
  encoderScaleFactor : float;
  positionNumerator : float;
  positionDenominator : float
}.

Definition default : t := {|
  encoderTicks := 1;
  encoderRevolutions := 1;
  gearMotorShaftRevolutions := 1;
  gearDrivingShaftRevolutions := 1;
  feedLength := 1;
  feedDrivingShaftRevolutions := 1;
  ratedTorque := unknown;
  ratedCurrent := unknown;
  encoderScaleFactor := 1;
  positionNumerator := 1;
  positionDenominator := 1
|}.

(** Modelled from the spec: [update()] recomputes the cached ratio from the
    three numerator/denominator pairs, as a pure function of the fields. *)
Definition update (f : t) : t := {|
  encoderTicks := encoderTicks f;
  encoderRevolutions := encoderRevolutions f;
  gearMotorShaftRevolutions := gearMotorShaftRevolutions f;
  gearDrivingShaftRevolutions := gearDrivingShaftRevolutions f;
  feedLength := feedLength f;
  feedDrivingShaftRevolutions := feedDrivingShaftRevolutions f;
  ratedTorque := ratedTorque f;
  ratedCurrent := ratedCurrent f;
  encoderScaleFactor := encoderScaleFactor f;
  positionNumerator :=
    (double_of_Z (encoderRevolutions f) * double_of_Z (gearDrivingShaftRevolutions f)
     * double_of_Z (feedLength f))%float;
  positionDenominator :=
    (double_of_Z (encoderTicks f) * double_of_Z (gearMotorShaftRevolutions f)
     * double_of_Z (feedDrivingShaftRevolutions f))%float
|}.

Definition set_encoderScaleFactor (f : t) (scale : float) : t := {|
  encoderTicks := encoderTicks f;
  encoderRevolutions := encoderRevolutions f;
  gearMotorShaftRevolutions := gearMotorShaftRevolutions f;
  gearDrivingShaftRevolutions := gearDrivingShaftRevolutions f;
  feedLength := feedLength f;
  feedDrivingShaftRevolutions := feedDrivingShaftRevolutions f;
  ratedTorque := ratedTorque f;
  ratedCurrent := ratedCurrent f;
  encoderScaleFactor := scale;
  positionNumerator := positionNumerator f;
  positionDenominator := positionDenominator f
|}.

(** Modelled from the spec: [raw * encoderRevolutions *
    gearDrivingShaftRevolutions * feedLength / (encoderTicks *
    gearMotorShaftRevolutions * feedDrivingShaftRevolutions) *
    encoderScaleFactor], failing when the denominator is zero. *)
Definition rawToEncoder (f : t) (raw : Z) : Exc float :=
  if (positionDenominator f =? 0)%float then throw LogicError
  else ok (double_of_Z raw * positionNumerator f / positionDenominator f
           * encoderScaleFactor f)%float.

(** Modelled from the spec: [raw * ratedCurrent / 1000], failing when the
    rated current is unknown. *)
Definition rawToCurrent (f : t) (raw : Z) : Exc float :=
  if isUnknown (ratedCurrent f) then throw LogicError
  else ok (double_of_Z raw * ratedCurrent f / double_of_Z 1000)%float.

(** Modelled from the spec: [raw * ratedTorque / 1000], failing when the
    rated torque is unknown. *)
Definition rawToTorque (f : t) (raw : Z) : Exc float :=
  if isUnknown (ratedTorque f) then throw LogicError
  else ok (double_of_Z raw * ratedTorque f / double_of_Z 1000)%float.

End Factors.

(** ** MotorParameters *)

Module MotorParameters.

(** Modelled from the spec: [MotorParameters.hpp] is not among the sources.
    The fields are the ones [Controller::setMotorParameters] reads; a zero
    ratio and an unknown torque constant mean that nothing is overridden. *)
Record t := {
  encoderTicks : Z;
  encoderRevolutions : Z;
  gearMotorShaftRevolutions : Z;
  gearDrivingShaftRevolutions : Z;
  feedLength : Z;
  feedDrivingShaftRevolutions : Z;
  torqueConstant : float
}.

Definition default : t := {|
  encoderTicks := 0;
  encoderRevolutions := 0;
  gearMotorShaftRevolutions := 0;
  gearDrivingShaftRevolutions := 0;
  feedLength := 0;
  feedDrivingShaftRevolutions := 0;
  torqueConstant := unknown
|}.

End MotorParameters.

(** ** Joint state and limits (base-types) *)

Module JointState.

Inductive MODE := POSITION | SPEED | EFFORT | RAW | ACCELERATION | UNSET.

Record t := {
  position : float;
  speed : float;
  effort : float;
  raw : float;
  acceleration : float
}.

(** A default-constructed [base::JointState]: every field unset. *)
Definition default : t := {|
  position := unset;
  speed := unset;
  effort := unset;
  raw := unset;
  acceleration := unset
|}.

Definition set_position (s : t) (v : float) : t :=
  {| position := v; speed := speed s; effort := effort s; raw := raw s;
     acceleration := acceleration s |}.
Definition set_speed (s : t) (v : float) : t :=
  {| position := position s; speed := v; effort := effort s; raw := raw s;
     acceleration := acceleration s |}.
Definition set_effort (s : t) (v : float) : t :=
  {| position := position s; speed := speed s; effort := v; raw := raw s;
     acceleration := acceleration s |}.
Definition set_raw (s : t) (v : float) : t :=
  {| position := position s; speed := speed s; effort := effort s; raw := v;
     acceleration := acceleration s |}.
Definition set_acceleration (s : t) (v : float) : t :=
  {| position := position s; speed := speed s; effort := effort s; raw := raw s;
     acceleration := v |}.

End JointState.

Record JointLimitRange := {
  range_min : JointState.t;
  range_max : JointState.t
}.

(** ** The CANopen engine (canopen_master) *)

(** A PDO mapping: the mapped objects as [(index, subindex, size in bytes)]. *)
Definition PDOMapping : Type := list (Z * Z * Z).

(** The part of [canopen_master::StateMachine] the controller relies on: the
    object dictionary and the declared PDO mappings. *)
Record StateMachine := {
  nodeId : Z;
  dictionary : gmap (Z * Z) Z;
  rpdoMappings : gmap Z PDOMapping;
  tpdoMappings : gmap Z PDOMapping
}.

Definition new_StateMachine (node : Z) : StateMachine :=
  {| nodeId := node; dictionary := ∅; rpdoMappings := ∅; tpdoMappings := ∅ |}.

(** [StateMachine::set<T>], [get<T>] and [has]. *)
Definition sm_set (sm : StateMachine) (k : Z * Z) (v : Z) : StateMachine :=
  {| nodeId := nodeId sm; dictionary := <[k := v]> (dictionary sm);
     rpdoMappings := rpdoMappings sm; tpdoMappings := tpdoMappings sm |}.

Definition sm_get (sm : StateMachine) (k : Z * Z) : Exc Z :=
  match dictionary sm !! k with
  | Some v => ok v
  | None => throw ObjectNotRead
  end.

Definition sm_has (sm : StateMachine) (k : Z * Z) : bool :=
  bool_decide (is_Some (dictionary sm !! k)).

Definition declareRPDOMapping (sm : StateMachine) (pdoIndex : Z) (m : PDOMapping)
  : StateMachine :=
  {| nodeId := nodeId sm; dictionary := dictionary sm;
     rpdoMappings := <[pdoIndex := m]> (rpdoMappings sm);
     tpdoMappings := tpdoMappings sm |}.

(** The tag of the engine's low-level update; the controller distinguishes
    two of its values and ignores the rest. *)
Inductive Mode :=
  | PROCESSED_HEARTBEAT
  | PROCESSED_SDO_INITIATE_DOWNLOAD
  | PROCESSED_OTHER.

Record CanUpdate := {
  mode : Mode;
  updated : list (Z * Z)
}.

(** What the engine does with a message is its own contract: the controller
    is verified for every engine. *)
Class Engine := {
  Message : Type;
  PDOCommunicationParameters : Type;
  sm_process : StateMachine -> Message -> StateMachine * CanUpdate;
  sm_download : StateMachine -> Z -> Z -> IntKind -> Z -> Message;
  sm_configurePDO :
    StateMachine -> bool -> Z -> PDOCommunicationParameters -> PDOMapping -> list Message
}.

(** ** Update *)

(** Modelled from the spec: [Update.hpp] is not among the sources. A result
    is an acknowledgment of one object or a mask of updated groups, built by
    the two factories [process] calls. *)
Record Update := {
  acked : bool;
  ackedObjectId : Z;
  ackedObjectSubId : Z;
  updatedObjects : Z
}.

Definition Ack (objectId objectSubId : Z) : Update :=
  {| acked := true; ackedObjectId := objectId; ackedObjectSubId := objectSubId;
     updatedObjects := 0 |}.

Definition UpdatedObjects (update : Z) : Update :=
  {| acked := false; ackedObjectId := 0; ackedObjectSubId := 0;
     updatedObjects := update |}.

Definition isAck (u : Update) : bool := acked u.

Definition hasOneUpdated (u : Update) (groups : Z) : bool :=
  negb (Z.land (updatedObjects u) groups =? 0).

(** ** The controller *)

Record Controller := {
  mCanOpen : StateMachine;
  mRatedTorque : float;
  mFactors : Factors.t;
  mZeroPosition : Z;
  mMotorParameters : MotorParameters.t
}.

Definition with_mCanOpen (c : Controller) (sm : StateMachine) : Controller :=
  {| mCanOpen := sm; mRatedTorque := mRatedTorque c; mFactors := mFactors c;
     mZeroPosition := mZeroPosition c; mMotorParameters := mMotorParameters c |}.

Definition with_mFactors (c : Controller) (f : Factors.t) : Controller :=
  {| mCanOpen := mCanOpen c; mRatedTorque := mRatedTorque c; mFactors := f;
     mZeroPosition := mZeroPosition c; mMotorParameters := mMotorParameters c |}.

Definition with_mMotorParameters (c : Controller) (p : MotorParameters.t) : Controller :=
  {| mCanOpen := mCanOpen c; mRatedTorque := mRatedTorque c; mFactors := mFactors c;
     mZeroPosition := mZeroPosition c; mMotorParameters := p |}.

Section Operations.
Context {cat : Catalogue} {eng : Engine}.

Definition key (o : Object) : Z * Z := (OBJECT_ID o, OBJECT_SUB_ID o).

(** [Controller::setRaw<T>] and [Controller::getRaw<T>]. *)
Definition setRaw (o : Object) (value : Z) (c : Controller) : Controller :=
  with_mCanOpen c (sm_set (mCanOpen c) (key o) (wrap (OBJECT_TYPE o) value)).

Definition getRaw (c : Controller) (o : Object) : Exc Z :=
  let* v := sm_get (mCanOpen c) (key o) in
  ok (wrap (OBJECT_TYPE o) v).

(** [Controller::Controller]. *)
Definition new_Controller (node : Z) : Controller :=
  let c := {| mCanOpen := new_StateMachine node;
              mRatedTorque := unknown;
              mFactors := Factors.default;
              mZeroPosition := 0;
              mMotorParameters := MotorParameters.default |} in
  let c := setRaw PositionEncoderResolutionNum 1 c in
  let c := setRaw PositionEncoderResolutionDen 1 c in
  let c := setRaw GearRatioNum 1 c in
  let c := setRaw GearRatioDen 1 c in
  let c := setRaw FeedConstantNum 1 c in
  let c := setRaw FeedConstantDen 1 c in
  let c := setRaw MotorRatedCurrent 1 c in
  setRaw MotorRatedTorque 1 c.

(** [Controller::setRatedTorque] and [getRatedTorque]. *)
Definition setRatedTorque (c : Controller) (ratedTorque : float) : Controller :=
  {| mCanOpen := mCanOpen c; mRatedTorque := ratedTorque; mFactors := mFactors c;
     mZeroPosition := mZeroPosition c; mMotorParameters := mMotorParameters c |}.

Definition getRatedTorque (c : Controller) : float := mRatedTorque c.

(** [Controller::setTorqueTarget]. The integer literals of the comparison
    and the factor 1000 are converted to [double]. *)
Definition setTorqueTarget (c : Controller) (target : float) : Exc Message :=
  if isUnknown (Factors.ratedTorque (mFactors c)) then throw LogicError
  else
    let canopen_target :=
      (target / Factors.ratedTorque (mFactors c) * double_of_Z 1000)%float in
    if (canopen_target <? double_of_Z (-32767))%float
       || (double_of_Z 32768 <? canopen_target)%float
    then throw OutOfRange
    else
      let* value := double_to_int I16 canopen_target in
      ok (sm_download (mCanOpen c) (OBJECT_ID TargetTorque) (OBJECT_SUB_ID TargetTorque)
            I16 value).

(** [Controller::computeFactors]: a default-constructed [Factors] whose
    ratios and rated values are assigned, then [update()]. *)
Definition computeFactors (c : Controller) : Exc Factors.t :=
  let* ticks := getRaw c PositionEncoderResolutionNum in
  let* revolutions := getRaw c PositionEncoderResolutionDen in
  let* gearMotor := getRaw c GearRatioNum in
  let* gearDriving := getRaw c GearRatioDen in
  let* feed := getRaw c FeedConstantNum in
  let* feedDriving := getRaw c FeedConstantDen in
  let* torque := getRaw c MotorRatedTorque in
  let* current := getRaw c MotorRatedCurrent in
  ok (Factors.update {|
    Factors.encoderTicks := ticks;
    Factors.encoderRevolutions := revolutions;
    Factors.gearMotorShaftRevolutions := gearMotor;
    Factors.gearDrivingShaftRevolutions := gearDriving;
    Factors.feedLength := feed;
    Factors.feedDrivingShaftRevolutions := feedDriving;
    Factors.ratedTorque := (double_of_Z torque / double_of_Z 1000)%float;
    Factors.ratedCurrent := (double_of_Z current / double_of_Z 1000)%float;
    Factors.encoderScaleFactor := Factors.encoderScaleFactor Factors.default;
    Factors.positionNumerator := Factors.positionNumerator Factors.default;
    Factors.positionDenominator := Factors.positionDenominator Factors.default
  |}).

(** [if (value) setRaw<T>(value);] *)
Definition setRaw_if_set (o : Object) (value : Z) (c : Controller) : Controller :=
  if value =? 0 then c else setRaw o value c.

(** [Controller::setMotorParameters]. [ObjectNotRead] is caught around
    [computeFactors] only. *)
Definition setMotorParameters (c : Controller) (parameters : MotorParameters.t)
  : Exc Controller :=
  let c := with_mMotorParameters c parameters in
  let c := setRaw_if_set PositionEncoderResolutionNum
             (MotorParameters.encoderTicks parameters) c in
  let c := setRaw_if_set PositionEncoderResolutionDen
             (MotorParameters.encoderRevolutions parameters) c in
  let c := setRaw_if_set GearRatioNum
             (MotorParameters.gearMotorShaftRevolutions parameters) c in
  let c := setRaw_if_set GearRatioDen
             (MotorParameters.gearDrivingShaftRevolutions parameters) c in
  let c := setRaw_if_set FeedConstantNum
             (MotorParameters.feedLength parameters) c in
  let c := setRaw_if_set FeedConstantDen
             (MotorParameters.feedDrivingShaftRevolutions parameters) c in
  let* c :=
    if isUnknown (MotorParameters.torqueConstant parameters) then ok c
    else
      let* current := getRaw c MotorRatedCurrent in
      let current_mA := wrap U64 current in
      let* torque :=
        double_to_int (OBJECT_TYPE MotorRatedTorque)
          (double_of_Z current_mA * MotorParameters.torqueConstant parameters)%float in
      ok (setRaw MotorRatedTorque torque c) in
  match computeFactors c with
  | inr factors => ok (with_mFactors c factors)
  | inl ObjectNotRead => ok c
  | inl e => throw e
  end.

Definition getFactors (c : Controller) : Factors.t := mFactors c.

(** [static_cast<uint32_t>(id) << 8 | subId] *)
Definition fullId (id subId : Z) : Z :=
  Z.lor (wrap U32 (Z.shiftl (wrap U32 id) 8)) (wrap U32 subId).

Definition objectFullId (o : Object) : Z :=
  fullId (OBJECT_ID o) (OBJECT_SUB_ID o).

(** The case labels of the [switch (fullId)] of [process], in order. *)
Definition SDO_UPDATE_CASES : list Object :=
  [ StatusWord; ModesOfOperation;
    PositionEncoderResolutionNum; PositionEncoderResolutionDen;
    VelocityEncoderResolutionNum; VelocityEncoderResolutionDen;
    AccelerationFactorNum; AccelerationFactorDen;
    GearRatioNum; GearRatioDen;
    FeedConstantNum; FeedConstantDen;
    VelocityFactorNum; VelocityFactorDen;
    MotorRatedCurrent; MotorRatedTorque;
    PositionActualInternalValue; VelocityActualValue; CurrentActualValue;
    SoftwarePositionLimitMin; SoftwarePositionLimitMax;
    MaxMotorSpeed; MaxAcceleration; MaxDeceleration; MaxCurrent ].

(** One pass through the [switch]: [update |= object::UPDATE_ID] for the
    label that matches, nothing when none does. The labels of a C++ switch
    are pairwise distinct, so the first match is the only one. *)
Definition sdo_update_case (update : Z) (object : Z * Z) : Z :=
  match find (fun o => objectFullId o =? fullId (fst object) (snd object))
          SDO_UPDATE_CASES with
  | Some o => Z.lor update (wrap U64 (UPDATE_ID o))
  | None => update
  end.

(** The [switch (canUpdate.mode)] for the modes that fall through to the
    loop: [update] starts at 0 and a heartbeat sets its group. *)
Definition mode_update_case (m : Mode) : Z :=
  match m with
  | PROCESSED_HEARTBEAT => Z.lor 0 (wrap U64 Heartbeat_UPDATE_ID)
  | _ => 0
  end.

(** [update & UPDATE_FACTORS] as a condition. *)
Definition factors_updated (update : Z) : bool :=
  negb (Z.land update (wrap U64 UPDATE_FACTORS) =? 0).

(** [Controller::process]. The loop runs over the updated objects of the
    engine's result; [canUpdate.updated[0]] on an empty list is undefined. *)
Definition process (c : Controller) (msg : Message) : Exc (Controller * Update) :=
  let (sm, canUpdate) := sm_process (mCanOpen c) msg in
  let c := with_mCanOpen c sm in
  match mode canUpdate with
  | PROCESSED_SDO_INITIATE_DOWNLOAD =>
      match updated canUpdate with
      | object :: _ => ok (c, Ack (fst object) (snd object))
      | [] => throw UndefinedBehaviour
      end
  | m =>
      let update := fold_left sdo_update_case (updated canUpdate) (mode_update_case m) in
      if factors_updated update then
        let* c := setMotorParameters c (mMotorParameters c) in
        ok (c, UpdatedObjects update)
      else ok (c, UpdatedObjects update)
  end.

(** [Controller::getZeroPosition], [setZeroPosition] and
    [setEncoderScaleFactor]. *)
Definition getZeroPosition (c : Controller) : Z := mZeroPosition c.

Definition setZeroPosition (c : Controller) (base : Z) : Controller :=
  {| mCanOpen := mCanOpen c; mRatedTorque := mRatedTorque c; mFactors := mFactors c;
     mZeroPosition := wrap I64 base; mMotorParameters := mMotorParameters c |}.

Definition setEncoderScaleFactor (c : Controller) (scale : float) : Controller :=
  with_mFactors c (Factors.update (Factors.set_encoderScaleFactor (mFactors c) scale)).

(** [fields & mask] as a condition, both operands converted to [uint64_t]. *)
Definition requested (fields mask : Z) : bool :=
  negb (Z.land (wrap U64 fields) (wrap U64 mask) =? 0).

(** The type of [x - mZeroPosition] for [x] of kind [k] and an [int64_t]. *)
Definition int64_common (k : IntKind) : IntKind :=
  match k with
  | U64 => U64
  | _ => I64
  end.

(** [Controller::getJointState]. *)
Definition getJointState (c : Controller) (fields : Z) : Exc JointState.t :=
  let state := JointState.default in
  let* state :=
    if requested fields UPDATE_JOINT_POSITION then
      let* raw := getRaw c PositionActualInternalValue in
      let position :=
        wrap (int64_common (OBJECT_TYPE PositionActualInternalValue))
          (raw - mZeroPosition c) in
      let* v := Factors.rawToEncoder (mFactors c) position in
      ok (JointState.set_position state v)
    else ok state in
  let* state :=
    if requested fields UPDATE_JOINT_VELOCITY then
      let* velocity := getRaw c VelocityActualValue in
      let* v := Factors.rawToEncoder (mFactors c) velocity in
      ok (JointState.set_speed state v)
    else ok state in
  if requested fields UPDATE_JOINT_CURRENT then
    let* current_and_torque := getRaw c CurrentActualValue in
    let* r := Factors.rawToCurrent (mFactors c) current_and_torque in
    let state := JointState.set_raw state r in
    let* e := Factors.rawToTorque (mFactors c) current_and_torque in
    ok (JointState.set_effort state e)
  else ok state.

(** [Controller::getJointLimits]. *)
Definition getJointLimits (c : Controller) : Exc JointLimitRange :=
  let min := JointState.default in
  let max := JointState.default in
  let* rawMin := getRaw c SoftwarePositionLimitMin in
  let rawPositionMin := wrap I32 rawMin in
  let* rawMax := getRaw c SoftwarePositionLimitMax in
  let rawPositionMax := wrap I32 rawMax in
  let* positions :=
    if (rawPositionMin =? rawPositionMax) && (rawPositionMin =? 0) then
      ok ((- infinity)%float, infinity)
    else
      let* lo := Factors.rawToEncoder (mFactors c) rawPositionMin in
      let* hi := Factors.rawToEncoder (mFactors c) rawPositionMax in
      ok (lo, hi) in
  let min := JointState.set_position min (fst positions) in
  let max := JointState.set_position max (snd positions) in
  let* rawSpeed := getRaw c MaxMotorSpeed in
  let rawMaxSpeed := wrap I32 rawSpeed in
  let* speeds :=
    if rawMaxSpeed <? 0 then ok ((- infinity)%float, infinity)
    else
      let* speedLimit := Factors.rawToEncoder (mFactors c) rawMaxSpeed in
      ok ((- speedLimit)%float, speedLimit) in
  let min := JointState.set_speed min (fst speeds) in
  let max := JointState.set_speed max (snd speeds) in
  let min := JointState.set_acceleration min (- infinity)%float in
  let max := JointState.set_acceleration max infinity in
  let* torqueAndCurrentLimit := getRaw c MaxCurrent in
  let* torqueLimit := Factors.rawToTorque (mFactors c) torqueAndCurrentLimit in
  let min := JointState.set_effort min (- torqueLimit)%float in
  let max := JointState.set_effort max torqueLimit in
  let* currentLimit := Factors.rawToCurrent (mFactors c) torqueAndCurrentLimit in
  let min := JointState.set_raw min (- currentLimit)%float in
  let max := JointState.set_raw max currentLimit in
  ok {| range_min := min; range_max := max |}.

(** [PDOMapping::add<Object>()] *)
Definition mapping_add (m : PDOMapping) (o : Object) : PDOMapping :=
  m ++ [(OBJECT_ID o, OBJECT_SUB_ID o, sizeof (OBJECT_TYPE o))].

(** The [switch (control_mode)] of [configureControlPDO]. *)
Definition controlMapping (control_mode : JointState.MODE) : Exc PDOMapping :=
  let mapping : PDOMapping := [] in
  match control_mode with
  | JointState.POSITION => ok (mapping_add mapping TargetPosition)
  | JointState.SPEED => ok (mapping_add mapping TargetVelocity)
  | JointState.EFFORT => ok (mapping_add mapping TargetTorque)
  | _ => throw InvalidArgument
  end.

(** [Controller::configureControlPDO]. *)
Definition configureControlPDO (c : Controller) (pdoIndex : Z)
    (control_mode : JointState.MODE) (parameters : PDOCommunicationParameters)
  : Exc (list Message * Controller) :=
  let* mapping := controlMapping control_mode in
  let msg := sm_configurePDO (mCanOpen c) false pdoIndex parameters mapping in
  let c := with_mCanOpen c (declareRPDOMapping (mCanOpen c) pdoIndex mapping) in
  ok (msg, c).

End Operations.

(** ** A catalogue and an engine to run the controller on *)

Module DS402.

(** The object indices of the CiA-402 profile, with one bit per update
    group. *)
Definition object_id (o : Object) : Z :=
  match o with
  | CANControllerStatus => 0x2082
  | StatusWord => 0x6041
  | ModesOfOperation => 0x6060
  | PositionEncoderResolutionNum | PositionEncoderResolutionDen => 0x608F
  | VelocityEncoderResolutionNum | VelocityEncoderResolutionDen => 0x6090
  | AccelerationFactorNum | AccelerationFactorDen => 0x6097
  | GearRatioNum | GearRatioDen => 0x6091
  | FeedConstantNum | FeedConstantDen => 0x6092
  | VelocityFactorNum | VelocityFactorDen => 0x6096
  | MotorRatedCurrent => 0x6075
  | MotorRatedTorque => 0x6076
  | PositionActualInternalValue => 0x6063
  | VelocityActualValue => 0x606C
  | CurrentActualValue => 0x6078
  | SoftwarePositionLimitMin | SoftwarePositionLimitMax => 0x607D
  | MaxMotorSpeed => 0x6080
  | MaxAcceleration => 0x60C5
  | MaxDeceleration => 0x60C6
  | MaxCurrent => 0x6073
  | TargetPosition => 0x607A
  | TargetVelocity => 0x60FF
  | TargetTorque => 0x6071
  end.

Definition object_sub_id (o : Object) : Z :=
  match o with
  | PositionEncoderResolutionNum | VelocityEncoderResolutionNum
  | AccelerationFactorNum | GearRatioNum | FeedConstantNum | VelocityFactorNum
  | SoftwarePositionLimitMin => 1
  | PositionEncoderResolutionDen | VelocityEncoderResolutionDen
  | AccelerationFactorDen | GearRatioDen | FeedConstantDen | VelocityFactorDen
  | SoftwarePositionLimitMax => 2
  | _ => 0
  end.

Definition object_type (o : Object) : IntKind :=
  match o with
  | CANControllerStatus | StatusWord | MaxCurrent => U16
  | ModesOfOperation => I8
  | PositionActualInternalValue | VelocityActualValue
  | SoftwarePositionLimitMin | SoftwarePositionLimitMax
  | TargetPosition | TargetVelocity => I32
  | CurrentActualValue | TargetTorque => I16
  | _ => U32
  end.

Definition STATUS_WORD : Z := 0x01.
Definition OPERATION_MODE : Z := 0x02.
Definition FACTORS : Z := 0x04.
Definition JOINT_POSITION : Z := 0x08.
Definition JOINT_VELOCITY : Z := 0x10.
Definition JOINT_CURRENT : Z := 0x20.
Definition JOINT_LIMITS : Z := 0x40.
Definition HEARTBEAT : Z := 0x80.

Definition update_id (o : Object) : Z :=
  match o with
  | CANControllerStatus => 0
  | StatusWord => STATUS_WORD
  | ModesOfOperation => OPERATION_MODE
  | PositionActualInternalValue => JOINT_POSITION
  | VelocityActualValue => JOINT_VELOCITY
  | CurrentActualValue => JOINT_CURRENT
  | SoftwarePositionLimitMin | SoftwarePositionLimitMax | MaxMotorSpeed
  | MaxAcceleration | MaxDeceleration | MaxCurrent => JOINT_LIMITS
  | TargetPosition | TargetVelocity | TargetTorque => 0
  | _ => FACTORS
  end.

#[export] Instance catalogue : Catalogue := {|
  OBJECT_ID := object_id;
  OBJECT_SUB_ID := object_sub_id;
  OBJECT_TYPE := object_type;
  UPDATE_ID := update_id;
  Heartbeat_UPDATE_ID := HEARTBEAT;
  UPDATE_FACTORS := FACTORS;
  UPDATE_JOINT_POSITION := JOINT_POSITION;
  UPDATE_JOINT_VELOCITY := JOINT_VELOCITY;
  UPDATE_JOINT_CURRENT := JOINT_CURRENT
|}.

(** Messages already decoded, and an engine that stores what a reply
    carries: an upload reply writes the dictionary, a download reply
    acknowledges a write, a heartbeat touches nothing. *)
Inductive message :=
  | Heartbeat
  | UploadReply (id subId value : Z)
  | DownloadReply (id subId : Z)
  | DownloadRequest (id subId : Z) (kind : IntKind) (value : Z)
  | ConfigurePDO (transmit : bool) (pdoIndex : Z) (mapping : PDOMapping).

Definition engine_process (sm : StateMachine) (msg : message)
  : StateMachine * CanUpdate :=
  match msg with
  | Heartbeat => (sm, {| mode := PROCESSED_HEARTBEAT; updated := [] |})
  | UploadReply id subId value =>
      (sm_set sm (id, subId) value,
       {| mode := PROCESSED_OTHER; updated := [(id, subId)] |})
  | DownloadReply id subId =>
      (sm, {| mode := PROCESSED_SDO_INITIATE_DOWNLOAD; updated := [(id, subId)] |})
  | _ => (sm, {| mode := PROCESSED_OTHER; updated := [] |})
  end.

#[export] Instance engine : Engine := {|
  Message := message;
  PDOCommunicationParameters := unit;
  sm_process := engine_process;
  sm_download := fun _ id subId kind value => DownloadRequest id subId kind value;
  sm_configurePDO := fun _ transmit pdoIndex _ mapping =>
    [ConfigurePDO transmit pdoIndex mapping]
|}.

(** A reply of the drive carrying the raw value of an object. *)
Definition reply (o : Object) (value : Z) : message :=
  UploadReply (object_id o) (object_sub_id o) value.

(** The state of a controller after a list of incoming messages. *)
Fixpoint feed (c : Controller) (msgs : list message) : Exc Controller :=
  match msgs with
  | [] => ok c
  | msg :: rest =>
      let* r := process c msg in
      feed (fst r) rest
  end.

(** The result of an operation that is known to succeed. *)
Definition get {A} (default : A) (r : Exc A) : A :=
  match r with
  | inr a => a
  | inl _ => default
  end.

(** A controller whose drive reported a rated torque of 1000 thousandths. *)
Definition rated : Controller :=
  get (new_Controller 1) (feed (new_Controller 1) [reply MotorRatedTorque 1000]).

(** Overrides for a 4096-tick encoder behind a 100:1 gear, and a torque
    constant of 0.5. *)
Definition parameters : MotorParameters.t := {|
  MotorParameters.encoderTicks := 4096;
  MotorParameters.encoderRevolutions := 1;
  MotorParameters.gearMotorShaftRevolutions := 100;
  MotorParameters.gearDrivingShaftRevolutions := 1;
  MotorParameters.feedLength := 0;
  MotorParameters.feedDrivingShaftRevolutions := 0;
  MotorParameters.torqueConstant := (double_of_Z 1 / double_of_Z 2)%float
|}.

(** A controller that read a rated current of 2000 mA, was given the
    overrides and an encoder scale factor of 2. *)
Definition configured : Controller :=
  let c := get (new_Controller 1)
             (feed (new_Controller 1) [reply MotorRatedCurrent 2000]) in
  let c := get c (setMotorParameters c parameters) in
  setEncoderScaleFactor c 2%float.

(** The drive reports an encoder resolution of its own. *)
Definition refresh : message := reply PositionEncoderResolutionNum 1.

Definition refreshed : Controller * Update :=
  get (configured, UpdatedObjects 0) (process configured refresh).

(** A controller that read its limits (no position limit, no speed limit),
    a position of 1000 ticks, and whose zero position is 100 ticks. *)
Definition measured : Controller :=
  let c := get (new_Controller 1)
             (feed (new_Controller 1)
                [ reply SoftwarePositionLimitMin 0;
                  reply SoftwarePositionLimitMax 0;
                  reply MaxMotorSpeed 4294967295;
                  reply MaxCurrent 500;
                  reply PositionActualInternalValue 1000;
                  reply MotorRatedTorque 1000 ]) in
  setZeroPosition c 100.

(** The reply to a write of the torque target. *)
Definition torque_written : message :=
  DownloadReply (object_id TargetTorque) (object_sub_id TargetTorque).

End DS402.

(** ** Predicates of the specification *)

Section Predicates.
Context {cat : Catalogue} {eng : Engine}.

(** The object has a value in the dictionary ([Controller::has<T>]). *)
Definition present (c : Controller) (o : Object) : Prop :=
  is_Some (dictionary (mCanOpen c) !! key o).

(** The objects [computeFactors] reads. *)
Definition factor_objects : list Object :=
  [ PositionEncoderResolutionNum; PositionEncoderResolutionDen;
    GearRatioNum; GearRatioDen; FeedConstantNum; FeedConstantDen;
    MotorRatedTorque; MotorRatedCurrent ].

(** The invariant the constructor establishes: every object
    [computeFactors] reads has a value. *)
Definition factor_objects_present (c : Controller) : Prop :=
  Forall (present c) factor_objects.

(** The engine never forgets a value of its dictionary. *)
Definition engine_keeps_objects : Prop :=
  forall sm msg k,
    is_Some (dictionary sm !! k) ->
    is_Some (dictionary (fst (sm_process sm msg)) !! k).

(** The objects [computeFactors] reads have pairwise distinct identities. *)
Definition factor_keys_distinct : Prop := NoDup (map key factor_objects).

(** One ratio override is in force: the raw object and the cached factor
    both hold the override, converted to the object's native kind. *)
Definition ratio_applied (c : Controller) (o : Object) (override : Z)
    (field : Factors.t -> Z) : Prop :=
  override <> 0 ->
  getRaw c o = ok (wrap (OBJECT_TYPE o) override) /\
  field (mFactors c) = wrap (OBJECT_TYPE o) override.

(** Every override of [p] is in force in [c]: the six ratios, and the rated
    torque derived from the torque constant and the rated current. *)
Definition overrides_applied (p : MotorParameters.t) (c : Controller) : Prop :=
  ratio_applied c PositionEncoderResolutionNum
    (MotorParameters.encoderTicks p) Factors.encoderTicks /\
  ratio_applied c PositionEncoderResolutionDen
    (MotorParameters.encoderRevolutions p) Factors.encoderRevolutions /\
  ratio_applied c GearRatioNum
    (MotorParameters.gearMotorShaftRevolutions p) Factors.gearMotorShaftRevolutions /\
  ratio_applied c GearRatioDen
    (MotorParameters.gearDrivingShaftRevolutions p) Factors.gearDrivingShaftRevolutions /\
  ratio_applied c FeedConstantNum
    (MotorParameters.feedLength p) Factors.feedLength /\
  ratio_applied c FeedConstantDen
    (MotorParameters.feedDrivingShaftRevolutions p) Factors.feedDrivingShaftRevolutions /\
  (isUnknown (MotorParameters.torqueConstant p) = false ->
   exists current torque,
     getRaw c MotorRatedCurrent = ok current /\
     double_to_int (OBJECT_TYPE MotorRatedTorque)
       (double_of_Z (wrap U64 current) * MotorParameters.torqueConstant p)%float
       = ok torque /\
     getRaw c MotorRatedTorque = ok (wrap (OBJECT_TYPE MotorRatedTorque) torque) /\
     Factors.ratedTorque (mFactors c)
       = (double_of_Z (wrap (OBJECT_TYPE MotorRatedTorque) torque)
          / double_of_Z 1000)%float).

(** The raw objects a call of [getJointState fields] is asked for. *)
Definition requested_objects (fields : Z) : list Object :=
  (if requested fields UPDATE_JOINT_POSITION then [PositionActualInternalValue] else [])
  ++ (if requested fields UPDATE_JOINT_VELOCITY then [VelocityActualValue] else [])
  ++ (if requested fields UPDATE_JOINT_CURRENT then [CurrentActualValue] else []).

(** What [getJointState fields] returns, field by field. *)
Definition joint_state_of (c : Controller) (fields : Z) (st : JointState.t) : Prop :=
  (if requested fields UPDATE_JOINT_POSITION then
     exists raw,
       getRaw c PositionActualInternalValue = ok raw /\
       Factors.rawToEncoder (mFactors c)
         (wrap (int64_common (OBJECT_TYPE PositionActualInternalValue))
            (raw - mZeroPosition c))
       = ok (JointState.position st)
   else JointState.position st = unset) /\
  (if requested fields UPDATE_JOINT_VELOCITY then
     exists raw,
       getRaw c VelocityActualValue = ok raw /\
       Factors.rawToEncoder (mFactors c) raw = ok (JointState.speed st)
   else JointState.speed st = unset) /\
  (if requested fields UPDATE_JOINT_CURRENT then
     exists raw,
       getRaw c CurrentActualValue = ok raw /\
       Factors.rawToCurrent (mFactors c) raw = ok (JointState.raw st) /\
       Factors.rawToTorque (mFactors c) raw = ok (JointState.effort st)
   else JointState.raw st = unset /\ JointState.effort st = unset) /\
  JointState.acceleration st = unset.

(** The state of [setMotorParameters] before the factors are recomputed. *)
Definition overridden (c : Controller) (p : MotorParameters.t) : Controller :=
  setRaw_if_set FeedConstantDen (MotorParameters.feedDrivingShaftRevolutions p)
    (setRaw_if_set FeedConstantNum (MotorParameters.feedLength p)
       (setRaw_if_set GearRatioDen (MotorParameters.gearDrivingShaftRevolutions p)
          (setRaw_if_set GearRatioNum (MotorParameters.gearMotorShaftRevolutions p)
             (setRaw_if_set PositionEncoderResolutionDen
                (MotorParameters.encoderRevolutions p)
                (setRaw_if_set PositionEncoderResolutionNum
                   (MotorParameters.encoderTicks p)
                   (with_mMotorParameters c p)))))).

(** The cast of the derived rated torque to the native kind of
    [MotorRatedTorque] is defined (or no torque constant is given). *)
Definition torque_defined (c : Controller) (p : MotorParameters.t) : Prop :=
  isUnknown (MotorParameters.torqueConstant p) = true \/
  exists current torque,
    getRaw (overridden c p) MotorRatedCurrent = ok current /\
    double_to_int (OBJECT_TYPE MotorRatedTorque)
      (double_of_Z (wrap U64 current) * MotorParameters.torqueConstant p)%float
    = ok torque.

(** The acknowledgment would carry the last-known value of the object: the
    value is a function of the result alone. *)
Definition ack_carries_value : Prop :=
  exists value_of : Update -> Z,
    forall c msg c' r v,
      process c msg = ok (c', r) ->
      isAck r = true ->
      sm_get (mCanOpen c') (ackedObjectId r, ackedObjectSubId r) = ok v ->
      value_of r = v.

(** The states a controller goes through. *)
Inductive reachable : Controller -> Prop :=
  | reachable_new node : reachable (new_Controller node)
  | reachable_process c msg c' r :
      reachable c -> process c msg = ok (c', r) -> reachable c'
  | reachable_setMotorParameters c p c' :
      reachable c -> setMotorParameters c p = ok c' -> reachable c'
  | reachable_setEncoderScaleFactor c scale :
      reachable c -> reachable (setEncoderScaleFactor c scale)
  | reachable_setRatedTorque c torque :
      reachable c -> reachable (setRatedTorque c torque)
  | reachable_setZeroPosition c base :
      reachable c -> reachable (setZeroPosition c base)
  | reachable_configureControlPDO c pdoIndex control_mode parameters msgs c' :
      reachable c ->
      configureControlPDO c pdoIndex control_mode parameters = ok (msgs, c') ->
      reachable c'.

(** The single entry of a control mapping. *)
Definition mapping_entry (o : Object) : Z * Z * Z :=
  (OBJECT_ID o, OBJECT_SUB_ID o, sizeof (OBJECT_TYPE o)).

End Predicates.

(** * The remaining operations of the controller *)

(** The message builders of the engine the query and PDO operations call,
    for every engine. *)
Class Builders {eng : Engine} := {
  sm_upload : StateMachine -> Z -> Z -> Message;
  sm_disablePDO : StateMachine -> bool -> Z -> Message
}.

(** The inverse conversions of [Factors.cpp], which is not among the
    sources: [setControlTargets] is verified for every pair of them. Their
    result is what the source stores in an [int64_t]. *)
Class InverseFactors := {
  rawFromEncoder : Factors.t -> float -> Exc Z;
  rawFromTorque : Factors.t -> float -> Exc Z
}.

(** The mask of [Update.hpp] that [configureJointStateUpdatePDOs] compares
    its argument with. *)
Class JointStateGroup := {
  UPDATE_JOINT_STATE : Z
}.

Definition declareTPDOMapping (sm : StateMachine) (pdoIndex : Z) (m : PDOMapping)
  : StateMachine :=
  {| nodeId := nodeId sm; dictionary := dictionary sm;
     rpdoMappings := rpdoMappings sm;
     tpdoMappings := <[pdoIndex := m]> (tpdoMappings sm) |}.

(** [base::JointState::hasPosition], [hasSpeed] and [hasEffort]. *)
Definition hasPosition (s : JointState.t) : bool := negb (isUnset (JointState.position s)).
Definition hasSpeed (s : JointState.t) : bool := negb (isUnset (JointState.speed s)).
Definition hasEffort (s : JointState.t) : bool := negb (isUnset (JointState.effort s)).

Section Queries.
Context {cat : Catalogue} {eng : Engine} {bld : Builders} {inv : InverseFactors}
  {grp : JointStateGroup}.

(** [Controller::queryObject<T>]. *)
Definition queryObject (c : Controller) (o : Object) : Message :=
  sm_upload (mCanOpen c) (OBJECT_ID o) (OBJECT_SUB_ID o).

(** [Controller::queryFactors]. *)
Definition queryFactors (c : Controller) : list Message :=
  [ queryObject c PositionEncoderResolutionNum;
    queryObject c PositionEncoderResolutionDen;
    queryObject c GearRatioNum;
    queryObject c GearRatioDen;
    queryObject c FeedConstantNum;
    queryObject c FeedConstantDen;
    queryObject c VelocityFactorNum;
    queryObject c VelocityFactorDen;
    queryObject c MotorRatedCurrent;
    queryObject c MotorRatedTorque ].

(** [Controller::queryJointState]. *)
Definition queryJointState (c : Controller) : list Message :=
  [ queryObject c PositionActualInternalValue;
    queryObject c VelocityActualValue;
    queryObject c CurrentActualValue ].

(** [Controller::queryJointLimits]. *)
Definition queryJointLimits (c : Controller) : list Message :=
  [ queryObject c SoftwarePositionLimitMin;
    queryObject c SoftwarePositionLimitMax;
    queryObject c MaxMotorSpeed;
    queryObject c MaxAcceleration;
    queryObject c MaxDeceleration;
    queryObject c MaxCurrent ].

(** [Controller::getRawPosition]. *)
Definition getRawPosition (c : Controller) : Exc Z :=
  let* raw := getRaw c PositionActualInternalValue in
  ok (wrap I64 raw).

(** [Controller::setControlTargets]. *)
Definition setControlTargets (c : Controller) (targets : JointState.t) : Exc Controller :=
  let* c :=
    if hasPosition targets then
      let* raw := rawFromEncoder (mFactors c) (JointState.position targets) in
      ok (setRaw TargetPosition (wrap I64 raw) c)
    else ok c in
  let* c :=
    if hasSpeed targets then
      let* raw := rawFromEncoder (mFactors c) (JointState.speed targets) in
      ok (setRaw TargetVelocity (wrap I64 raw) c)
    else ok c in
  if hasEffort targets then
    let* raw := rawFromTorque (mFactors c) (JointState.effort targets) in
    ok (setRaw TargetTorque (wrap I64 raw) c)
  else ok c.

(** [Controller::configureStatusPDO]. *)
Definition configureStatusPDO (c : Controller) (pdoIndex : Z)
    (parameters : PDOCommunicationParameters) : list Message * Controller :=
  let mapping := mapping_add [] StatusWord in
  let msg := sm_configurePDO (mCanOpen c) true pdoIndex parameters mapping in
  (msg, with_mCanOpen c (declareTPDOMapping (mCanOpen c) pdoIndex mapping)).

(** The two mappings [configureJointStateUpdatePDOs] fills. *)
Definition jointStateMappings (fields : Z) : PDOMapping * PDOMapping :=
  let mapping0 : PDOMapping := [] in
  let mapping1 : PDOMapping := [] in
  if wrap U64 fields =? wrap U64 UPDATE_JOINT_STATE then
    let mapping0 := mapping_add mapping0 PositionActualInternalValue in
    let mapping0 := mapping_add mapping0 VelocityActualValue in
    let mapping1 := mapping_add mapping1 CurrentActualValue in
    (mapping0, mapping1)
  else
    let mapping0 :=
      if requested fields UPDATE_JOINT_POSITION
      then mapping_add mapping0 PositionActualInternalValue else mapping0 in
    let mapping0 :=
      if requested fields UPDATE_JOINT_VELOCITY
      then mapping_add mapping0 VelocityActualValue else mapping0 in
    let mapping0 :=
      if requested fields UPDATE_JOINT_CURRENT
      then mapping_add mapping0 CurrentActualValue else mapping0 in
    (mapping0, mapping1).

(** One slot of [configureJointStateUpdatePDOs]: an empty mapping disables
    the PDO, another one configures and declares it. *)
Definition configureTPDOSlot (c : Controller) (pdoIndex : Z)
    (parameters : PDOCommunicationParameters) (mapping : PDOMapping)
  : list Message * Controller :=
  match mapping with
  | [] => ([sm_disablePDO (mCanOpen c) true pdoIndex], c)
  | _ =>
      (sm_configurePDO (mCanOpen c) true pdoIndex parameters mapping,
       with_mCanOpen c (declareTPDOMapping (mCanOpen c) pdoIndex mapping))
  end.

(** [Controller::configureJointStateUpdatePDOs]. *)
Definition configureJointStateUpdatePDOs (c : Controller) (pdoIndex : Z)
    (parameters : PDOCommunicationParameters) (fields : Z)
  : list Message * Controller :=
  let (mapping0, mapping1) := jointStateMappings fields in
  let (messages0, c) := configureTPDOSlot c pdoIndex parameters mapping0 in
  let (messages1, c) :=
    configureTPDOSlot c (wrap I32 (pdoIndex + 1)) parameters mapping1 in
  (messages0 ++ messages1, c).

(** The objects of the three queries. *)
Definition queryFactors_objects : list Object :=
  [ PositionEncoderResolutionNum; PositionEncoderResolutionDen;
    GearRatioNum; GearRatioDen; FeedConstantNum; FeedConstantDen;
    VelocityFactorNum; VelocityFactorDen; MotorRatedCurrent; MotorRatedTorque ].

Definition queryJointState_objects : list Object :=
  [ PositionActualInternalValue; VelocityActualValue; CurrentActualValue ].

Definition queryJointLimits_objects : list Object :=
  [ SoftwarePositionLimitMin; SoftwarePositionLimitMax; MaxMotorSpeed;
    MaxAcceleration; MaxDeceleration; MaxCurrent ].

(** The identities of the three control targets. *)
Definition target_keys : list (Z * Z) :=
  [ key TargetPosition; key TargetVelocity; key TargetTorque ].

(** The identities of the objects [getJointLimits] reads. *)
Definition limit_keys : list (Z * Z) :=
  [ key SoftwarePositionLimitMin; key SoftwarePositionLimitMax;
    key MaxMotorSpeed; key MaxCurrent ].

(** The ratio overrides of [p] with the objects that hold them. *)
Definition ratio_overrides (p : MotorParameters.t) : list (Object * Z) :=
  [ (PositionEncoderResolutionNum, MotorParameters.encoderTicks p);
    (PositionEncoderResolutionDen, MotorParameters.encoderRevolutions p);
    (GearRatioNum, MotorParameters.gearMotorShaftRevolutions p);
    (GearRatioDen, MotorParameters.gearDrivingShaftRevolutions p);
    (FeedConstantNum, MotorParameters.feedLength p);
    (FeedConstantDen, MotorParameters.feedDrivingShaftRevolutions p) ].

(** The dictionary holds every ratio override of [p]. *)
Definition overrides_stored (p : MotorParameters.t) (c : Controller) : Prop :=
  forall o v,
    In (o, v) (ratio_overrides p) -> v <> 0 ->
    dictionary (mCanOpen c) !! key o = Some (wrap (OBJECT_TYPE o) v).

(** What the updated object [object] adds to the mask of [process]. *)
Definition object_groups (object : Z * Z) : Z :=
  sdo_update_case 0 object.

(** The states a controller goes through, with the operations above. *)
Inductive run : Controller -> Prop :=
  | run_new node : run (new_Controller node)
  | run_process c msg c' r :
      run c -> process c msg = ok (c', r) -> run c'
  | run_setMotorParameters c p c' :
      run c -> setMotorParameters c p = ok c' -> run c'
  | run_setEncoderScaleFactor c scale :
      run c -> run (setEncoderScaleFactor c scale)
  | run_setRatedTorque c torque :
      run c -> run (setRatedTorque c torque)
  | run_setZeroPosition c base :
      run c -> run (setZeroPosition c base)
  | run_setControlTargets c targets c' :
      run c -> setControlTargets c targets = ok c' -> run c'
  | run_configureControlPDO c pdoIndex control_mode parameters msgs c' :
      run c ->
      configureControlPDO c pdoIndex control_mode parameters = ok (msgs, c') ->
      run c'
  | run_configureStatusPDO c pdoIndex parameters :
      run c -> run (snd (configureStatusPDO c pdoIndex parameters))
  | run_configureJointStateUpdatePDOs c pdoIndex parameters fields :
      run c ->
      run (snd (configureJointStateUpdatePDOs c pdoIndex parameters fields)).

End Queries.

(** * The string tables of the command-line tool ([Main.cpp]) *)

Module Main.

(** [STRINGS<T>]: one row of a conversion table. *)
Record STRINGS (T : Type) := {
  name : string;
  value : T
}.
Arguments name {T} _.
Arguments value {T} _.

(** [toString]: the name of the first row that holds [v], searched up to
    the row with the empty name; running past the end of a table without
    such a row is undefined. *)
Fixpoint toString {T} `{EqDecision T} (conversions : list (STRINGS T)) (v : T)
  : Exc string :=
  match conversions with
  | [] => throw UndefinedBehaviour
  | conv :: rest =>
      if String.eqb (name conv) EmptyString then throw InvalidArgument
      else if bool_decide (value conv = v) then ok (name conv)
      else toString rest v
  end.

(** [fromString]: the value of the first row named [n]. *)
Fixpoint fromString {T} (conversions : list (STRINGS T)) (n : string) : Exc T :=
  match conversions with
  | [] => throw UndefinedBehaviour
  | conv :: rest =>
      if String.eqb (name conv) EmptyString then throw InvalidArgument
      else if String.eqb (name conv) n then ok (value conv)
      else fromString rest n
  end.

(** The rows before the terminating row. *)
Fixpoint rows {T} (conversions : list (STRINGS T)) : list (STRINGS T) :=
  match conversions with
  | [] => []
  | conv :: rest =>
      if String.eqb (name conv) EmptyString then [] else conv :: rows rest
  end.

(** The table has a terminating row. *)
Fixpoint terminated {T} (conversions : list (STRINGS T)) : bool :=
  match conversions with
  | [] => false
  | conv :: rest =>
      if String.eqb (name conv) EmptyString then true else terminated rest
  end.

(** [StatusWord::State], [ControlWord::Transition] and the operation modes
    the tables name. *)
Inductive State :=
  | NOT_READY_TO_SWITCH_ON
  | SWITCH_ON_DISABLED
  | READY_TO_SWITCH_ON
  | SWITCH_ON
  | OPERATION_ENABLED
  | QUICK_STOP_ACTIVE
  | FAULT_REACTION_ACTIVE
  | FAULT.

Inductive Transition :=
  | T_SHUTDOWN
  | T_SWITCH_ON
  | T_ENABLE_OPERATION
  | T_DISABLE_VOLTAGE
  | T_QUICK_STOP
  | T_DISABLE_OPERATION
  | T_FAULT_RESET.

Inductive OPERATION_MODES :=
  | OPERATION_MODE_NONE
  | OPERATION_MODE_PROFILED_POSITION
  | OPERATION_MODE_VELOCITY
  | OPERATION_MODE_PROFILED_VELOCITY
  | OPERATION_MODE_PROFILED_TORQUE
  | OPERATION_MODE_HOMING
  | OPERATION_MODE_CYCLIC_SYNCHRONOUS_POSITION
  | OPERATION_MODE_CYCLIC_SYNCHRONOUS_VELOCITY
  | OPERATION_MODE_CYCLIC_SYNCHRONOUS_TORQUE.

#[export] Instance State_eq_dec : EqDecision State.
Proof. solve_decision. Defined.
#[export] Instance Transition_eq_dec : EqDecision Transition.
Proof. solve_decision. Defined.
#[export] Instance OPERATION_MODES_eq_dec : EqDecision OPERATION_MODES.
Proof. solve_decision. Defined.

Definition row {T} (n : string) (v : T) : STRINGS T := {| name := n; value := v |}.

Definition StateStrings : list (STRINGS State) :=
  [ row "NOT_READY_TO_SWITCH_ON" NOT_READY_TO_SWITCH_ON;
    row "SWITCH_ON_DISABLED" SWITCH_ON_DISABLED;
    row "READY_TO_SWITCH_ON" READY_TO_SWITCH_ON;
    row "SWITCH_ON" SWITCH_ON;
    row "OPERATION_ENABLED" OPERATION_ENABLED;
    row "QUICK_STOP_ACTIVE" QUICK_STOP_ACTIVE;
    row "FAULT_REACTION_ACTIVE" FAULT_REACTION_ACTIVE;
    row "FAULT" FAULT;
    row "" FAULT ]%string.

Definition TransitionStrings : list (STRINGS Transition) :=
  [ row "SHUTDOWN" T_SHUTDOWN;
    row "SWITCH_ON" T_SWITCH_ON;
    row "ENABLE_OPERATION" T_ENABLE_OPERATION;
    row "DISABLE_VOLTAGE" T_DISABLE_VOLTAGE;
    row "QUICK_STOP" T_QUICK_STOP;
    row "DISABLE_OPERATION" T_DISABLE_OPERATION;
    row "FAULT_RESET" T_FAULT_RESET;
    row "" T_FAULT_RESET ]%string.

Definition OperationModeStrings : list (STRINGS OPERATION_MODES) :=
  [ row "NONE" OPERATION_MODE_NONE;
    row "PROFILED_POSITION" OPERATION_MODE_PROFILED_POSITION;
    row "VELOCITY" OPERATION_MODE_VELOCITY;
    row "PROFILED_VELOCITY" OPERATION_MODE_PROFILED_VELOCITY;
    row "PROFILED_TORQUE" OPERATION_MODE_PROFILED_TORQUE;
    row "HOMING" OPERATION_MODE_HOMING;
    row "CYCLIC_SYNCHRONOUS_POSITION" OPERATION_MODE_CYCLIC_SYNCHRONOUS_POSITION;
    row "CYCLIC_SYNCHRONOUS_VELOCITY" OPERATION_MODE_CYCLIC_SYNCHRONOUS_VELOCITY;
    row "CYCLIC_SYNCHRONOUS_TORQUE" OPERATION_MODE_CYCLIC_SYNCHRONOUS_TORQUE;
    row "" OPERATION_MODE_PROFILED_POSITION ]%string.

End Main.

(** * An engine with requests, to run the remaining operations on *)

Module Bus.

#[local] Existing Instance DS402.catalogue.

Inductive request :=
  | Upload (id subId : Z)
  | DisablePDO (transmit : bool) (pdoIndex : Z).

Definition message : Type := DS402.message + request.

Definition engine_process (sm : StateMachine) (msg : message)
  : StateMachine * CanUpdate :=
  match msg with
  | inl reply => DS402.engine_process sm reply
  | inr _ => (sm, {| mode := PROCESSED_OTHER; updated := [] |})
  end.

#[export] Instance engine : Engine := {|
  Message := message;
  PDOCommunicationParameters := unit;
  sm_process := engine_process;
  sm_download := fun _ id subId kind value =>
    inl (DS402.DownloadRequest id subId kind value);
  sm_configurePDO := fun _ transmit pdoIndex _ mapping =>
    [inl (DS402.ConfigurePDO transmit pdoIndex mapping)]
|}.

#[export] Instance builders : Builders := {|
  sm_upload := fun _ id subId => inr (Upload id subId);
  sm_disablePDO := fun _ transmit pdoIndex => inr (DisablePDO transmit pdoIndex)
|}.

(** Inverse conversions that round toward zero and refuse what has no
    integer part. *)
Definition from_double (v : float) : Exc Z :=
  match trunc v with
  | Some z => ok z
  | None => throw OutOfRange
  end.

#[export] Instance inverse : InverseFactors := {|
  rawFromEncoder := fun _ v => from_double v;
  rawFromTorque := fun f v =>
    from_double (v / Factors.ratedTorque f * double_of_Z 1000)%float
|}.

(** The three joint-state bits of [DS402]. *)
#[export] Instance group : JointStateGroup := {|
  UPDATE_JOINT_STATE := 0x38
|}.

(** A drive reply as a message of this engine. *)
Definition reply (o : Object) (value : Z) : message := inl (DS402.reply o value).

(** A controller that read nothing but what the constructor wrote. *)
Definition fresh : Controller := new_Controller 1.

(** A controller whose engine stored the replies to [queryJointLimits] and
    to [queryFactors], before any message was processed. *)
Definition answered : Controller :=
  let c := setRaw SoftwarePositionLimitMin (-1000) fresh in
  let c := setRaw SoftwarePositionLimitMax 1000 c in
  let c := setRaw MaxMotorSpeed 3000 c in
  let c := setRaw MaxAcceleration 10 c in
  let c := setRaw MaxDeceleration 10 c in
  let c := setRaw MaxCurrent 500 c in
  let c := setRaw VelocityFactorNum 1 c in
  setRaw VelocityFactorDen 1 c.

(** Targets with a position and a speed, and no effort. *)
Definition targets : JointState.t :=
  JointState.set_speed
    (JointState.set_position JointState.default (double_of_Z 1200))
    (double_of_Z (-7)).

End Bus.

(** * Properties *)

Section Properties.
Context {cat : Catalogue} {eng : Engine}.

(** ** Integers and the error monad *)

Lemma pow2_bits_pos k : 0 < 2 ^ bits k.
Proof. destruct k; reflexivity. Qed.

Lemma wrap_in_range k z : in_range k z = true -> wrap k z = z.
Proof.
  unfold in_range, wrap, min_int, max_int.
  intros H. apply andb_prop in H as [Hlo Hhi].
  apply Z.leb_le in Hlo, Hhi.
  destruct k; cbn in *; try (rewrite Z.mod_small; lia).
Qed.

Lemma wrap_range k z : in_range k (wrap k z) = true.
Proof.
  unfold in_range, wrap, min_int, max_int.
  apply andb_true_intro; split; apply Z.leb_le;
    destruct k; cbn;
    match goal with
    | |- context [?a mod ?b] => pose proof (Z.mod_pos_bound a b eq_refl)
    end; lia.
Qed.

Lemma wrap_idem k z : wrap k (wrap k z) = wrap k z.
Proof. apply wrap_in_range, wrap_range. Qed.

Lemma bind_ok {A B} (m : Exc A) (f : A -> Exc B) b :
  bind m f = ok b -> exists a, m = ok a /\ f a = ok b.
Proof. destruct m as [e|a]; cbn; [discriminate | eauto]. Qed.

Lemma bind_ok_eq {A B} (m : Exc A) (f : A -> Exc B) a :
  m = ok a -> bind m f = f a.
Proof. intros ->. reflexivity. Qed.

(** ** The dictionary *)

Lemma getRaw_present c o :
  present c o -> exists v, getRaw c o = ok v.
Proof.
  unfold present, getRaw, sm_get. intros [v Hv]. rewrite Hv. cbn. eauto.
Qed.

Lemma getRaw_ok_present c o v : getRaw c o = ok v -> present c o.
Proof.
  unfold present, getRaw, sm_get.
  destruct (dictionary (mCanOpen c) !! key o); [eauto | discriminate].
Qed.

Lemma getRaw_setRaw_eq c o v :
  getRaw (setRaw o v c) o = ok (wrap (OBJECT_TYPE o) v).
Proof.
  unfold getRaw, setRaw, sm_get. cbn.
  rewrite lookup_insert_eq. cbn. now rewrite wrap_idem.
Qed.

Lemma getRaw_setRaw_ne c o o' v :
  key o <> key o' -> getRaw (setRaw o v c) o' = getRaw c o'.
Proof.
  intros Hne. unfold getRaw, setRaw, sm_get. cbn.
  now rewrite lookup_insert_ne.
Qed.

Lemma present_setRaw c o o' v : present c o' -> present (setRaw o v c) o'.
Proof.
  unfold present, setRaw. cbn. intros H.
  destruct (decide (key o = key o')) as [->|Hne].
  - rewrite lookup_insert_eq. eauto.
  - now rewrite lookup_insert_ne.
Qed.

Lemma present_setRaw_eq c o v : present (setRaw o v c) o.
Proof. unfold present, setRaw. cbn. rewrite lookup_insert_eq. eauto. Qed.

Lemma mFactors_setRaw c o v : mFactors (setRaw o v c) = mFactors c.
Proof. reflexivity. Qed.

(** ** Torque targets *)

(** The range check of [setTorqueTarget], as written: the target is refused
    exactly below -32767 and above 32768. *)
Lemma setTorqueTarget_range_check c target :
  isUnknown (Factors.ratedTorque (mFactors c)) = false ->
  let canopen_target :=
    (target / Factors.ratedTorque (mFactors c) * double_of_Z 1000)%float in
  setTorqueTarget c target = throw OutOfRange <->
  (canopen_target <? double_of_Z (-32767))%float = true \/
  (double_of_Z 32768 <? canopen_target)%float = true.
Proof.
  intros Hknown canopen_target. unfold setTorqueTarget. rewrite Hknown.
  fold canopen_target.
  destruct (canopen_target <? double_of_Z (-32767))%float eqn:Hlo;
    destruct (double_of_Z 32768 <? canopen_target)%float eqn:Hhi;
    unfold orb; try (split; auto; fail).
  split.
  - unfold double_to_int.
    destruct (trunc canopen_target) as [z|]; [|discriminate].
    destruct (in_range I16 z); discriminate.
  - intros [H|H]; discriminate.
Qed.

(** C1 (evaluation of the code): [setRatedTorque] stores the value in a
    member that [setTorqueTarget] never reads, so it changes no result of
    [setTorqueTarget]; on a freshly constructed controller every target is
    still refused with the precondition error after [setRatedTorque(1.0)]. *)
Theorem setTorqueTarget_ignores_setRatedTorque :
  (forall c ratedTorque target,
     setTorqueTarget (setRatedTorque c ratedTorque) target = setTorqueTarget c target) /\
  (forall node target,
     setTorqueTarget (setRatedTorque (new_Controller node) 1%float) target
     = throw LogicError).
Proof.
  split.
  - reflexivity.
  - intros node target. reflexivity.
Qed.

(** C5: when the rated torque of the cached factors is unknown,
    [setTorqueTarget] throws the precondition error for every target, and
    so returns no message. *)
Theorem setTorqueTarget_unknown_rated_torque c target :
  isUnknown (Factors.ratedTorque (mFactors c)) = true ->
  setTorqueTarget c target = throw LogicError /\
  forall msg, setTorqueTarget c target <> ok msg.
Proof.
  intros Hunknown. unfold setTorqueTarget. rewrite Hunknown.
  split; [reflexivity | discriminate].
Qed.

(** ** Control PDO *)

(** C9: [configureControlPDO] maps exactly one object (the position,
    velocity or torque target) for the modes POSITION, SPEED and EFFORT, and
    throws the invalid-argument error for every other mode. *)
Theorem configureControlPDO_single_object c pdoIndex control_mode parameters :
  let configured (o : Object) :=
    controlMapping control_mode = ok [mapping_entry o] /\
    configureControlPDO c pdoIndex control_mode parameters
    = ok (sm_configurePDO (mCanOpen c) false pdoIndex parameters [mapping_entry o],
          with_mCanOpen c (declareRPDOMapping (mCanOpen c) pdoIndex [mapping_entry o])) in
  match control_mode with
  | JointState.POSITION => configured TargetPosition
  | JointState.SPEED => configured TargetVelocity
  | JointState.EFFORT => configured TargetTorque
  | _ => configureControlPDO c pdoIndex control_mode parameters = throw InvalidArgument
  end.
Proof.
  destruct control_mode; cbn; try split; reflexivity.
Qed.

(** ** Joint limits *)

(** [getJointLimits] returns a range as soon as the four raw limits were
    read and the conversions are defined. *)
Lemma getJointLimits_total c :
  present c SoftwarePositionLimitMin ->
  present c SoftwarePositionLimitMax ->
  present c MaxMotorSpeed ->
  present c MaxCurrent ->
  (Factors.positionDenominator (mFactors c) =? 0)%float = false ->
  isUnknown (Factors.ratedTorque (mFactors c)) = false ->
  isUnknown (Factors.ratedCurrent (mFactors c)) = false ->
  exists r, getJointLimits c = ok r.
Proof.
  intros Hmin Hmax Hspeed Hcur Hden Htorque Hcurrent.
  apply getRaw_present in Hmin as [lo Hlo], Hmax as [hi Hhi].
  apply getRaw_present in Hspeed as [s Hs], Hcur as [l Hl].
  unfold getJointLimits, Factors.rawToEncoder, Factors.rawToTorque,
    Factors.rawToCurrent.
  rewrite Hlo, Hhi, Hs, Hl, Hden, Htorque, Hcurrent. cbn [bind ok].
  destruct ((wrap I32 lo =? wrap I32 hi) && (wrap I32 lo =? 0));
    destruct (wrap I32 s <? 0); cbn [bind ok]; eauto.
Qed.

(** C6: in the range [getJointLimits] returns, raw position limits that are
    both 0 give the position range [-inf, +inf], a negative raw maximum
    speed gives the speed range [-inf, +inf], and the acceleration range is
    [-inf, +inf] whatever the dictionary holds. *)
Theorem getJointLimits_sentinels c r :
  getJointLimits c = ok r ->
  (forall lo hi,
     getRaw c SoftwarePositionLimitMin = ok lo ->
     getRaw c SoftwarePositionLimitMax = ok hi ->
     wrap I32 lo = 0 -> wrap I32 hi = 0 ->
     JointState.position (range_min r) = (- infinity)%float /\
     JointState.position (range_max r) = infinity) /\
  (forall s,
     getRaw c MaxMotorSpeed = ok s ->
     wrap I32 s < 0 ->
     JointState.speed (range_min r) = (- infinity)%float /\
     JointState.speed (range_max r) = infinity) /\
  JointState.acceleration (range_min r) = (- infinity)%float /\
  JointState.acceleration (range_max r) = infinity.
Proof.
  intros H. unfold getJointLimits in H.
  apply bind_ok in H as (rawMin & HrawMin & H).
  apply bind_ok in H as (rawMax & HrawMax & H).
  apply bind_ok in H as (positions & Hpositions & H).
  apply bind_ok in H as (rawSpeed & HrawSpeed & H).
  apply bind_ok in H as (speeds & Hspeeds & H).
  apply bind_ok in H as (limit & Hlimit & H).
  apply bind_ok in H as (torqueLimit & Htorque & H).
  apply bind_ok in H as (currentLimit & Hcurrent & H).
  injection H as <-.
  split; [|split; [|split; reflexivity]].
  - intros lo hi Hlo Hhi Hlo0 Hhi0.
    rewrite Hlo in HrawMin. rewrite Hhi in HrawMax.
    injection HrawMin as <-. injection HrawMax as <-.
    rewrite Hlo0, Hhi0 in Hpositions. cbn in Hpositions.
    injection Hpositions as <-. split; reflexivity.
  - intros s Hs Hneg. rewrite Hs in HrawSpeed. injection HrawSpeed as <-.
    apply Z.ltb_lt in Hneg. rewrite Hneg in Hspeeds.
    injection Hspeeds as <-. split; reflexivity.
Qed.

(** ** Joint state *)

Lemma requested_objects_position fields :
  requested fields UPDATE_JOINT_POSITION = true ->
  In PositionActualInternalValue (requested_objects fields).
Proof. unfold requested_objects. intros ->. now left. Qed.

Lemma requested_objects_velocity fields :
  requested fields UPDATE_JOINT_VELOCITY = true ->
  In VelocityActualValue (requested_objects fields).
Proof.
  unfold requested_objects. intros ->.
  apply in_or_app; right. now left.
Qed.

Lemma requested_objects_current fields :
  requested fields UPDATE_JOINT_CURRENT = true ->
  In CurrentActualValue (requested_objects fields).
Proof.
  unfold requested_objects. intros ->.
  apply in_or_app; right. apply in_or_app; right. now left.
Qed.

(** With no field requested nothing is read: every field is unset, even on
    an empty dictionary. *)
Lemma getJointState_nothing_requested c fields :
  requested_objects fields = [] ->
  getJointState c fields = ok JointState.default.
Proof.
  unfold requested_objects, getJointState.
  destruct (requested fields UPDATE_JOINT_POSITION); [discriminate|].
  destruct (requested fields UPDATE_JOINT_VELOCITY); [discriminate|].
  destruct (requested fields UPDATE_JOINT_CURRENT); [discriminate|].
  reflexivity.
Qed.

(** C7: [getJointState fields] converts the raw objects whose bits are set,
    the position after subtraction of the zero position and the others as
    they are, and leaves the other fields unset; its result depends on the
    dictionary through the requested objects only, and on the zero position
    only when the position is requested. *)
Theorem getJointState_requested_fields c fields :
  (forall st, getJointState c fields = ok st -> joint_state_of c fields st) /\
  (forall c',
     mFactors c' = mFactors c ->
     (requested fields UPDATE_JOINT_POSITION = true ->
      mZeroPosition c' = mZeroPosition c) ->
     (forall o, In o (requested_objects fields) -> getRaw c' o = getRaw c o) ->
     getJointState c' fields = getJointState c fields).
Proof.
  split.
  - intros st H. unfold getJointState in H. unfold joint_state_of.
    apply bind_ok in H as (st1 & H1 & H).
    apply bind_ok in H as (st2 & H2 & H).
    destruct (requested fields UPDATE_JOINT_POSITION);
      [ apply bind_ok in H1 as (raw & Hraw & H1);
        apply bind_ok in H1 as (p & Hp & H1)
      | ];
      injection H1 as <-;
      (destruct (requested fields UPDATE_JOINT_VELOCITY);
       [ apply bind_ok in H2 as (vel & Hvel & H2);
         apply bind_ok in H2 as (s & Hs & H2)
       | ];
       injection H2 as <-;
       (destruct (requested fields UPDATE_JOINT_CURRENT);
        [ apply bind_ok in H as (cur & Hcur & H);
          apply bind_ok in H as (i & Hi & H);
          apply bind_ok in H as (e & He & H)
        | ];
        injection H as <-; cbn; repeat split; eauto)).
  - intros c' HF Hzero Hraw. unfold getJointState.
    pose proof (requested_objects_position fields) as Hp.
    pose proof (requested_objects_velocity fields) as Hv.
    pose proof (requested_objects_current fields) as Hc.
    rewrite HF.
    destruct (requested fields UPDATE_JOINT_POSITION);
      [ rewrite (Hraw _ (Hp eq_refl)), (Hzero eq_refl) | ];
      (destruct (requested fields UPDATE_JOINT_VELOCITY);
       [ rewrite (Hraw _ (Hv eq_refl)) | ];
       (destruct (requested fields UPDATE_JOINT_CURRENT);
        [ rewrite (Hraw _ (Hc eq_refl)) | ]; reflexivity)).
Qed.

(** ** Factors and motor parameters *)

Lemma NoDup_map_inj {A B} (f : A -> B) (l : list A) x y :
  NoDup (map f l) -> In x l -> In y l -> f x = f y -> x = y.
Proof.
  induction l as [|a l IH]; cbn; [tauto|].
  intros Hnd Hx Hy Hxy. inversion Hnd as [|? ? Hnotin Hnd']; subst.
  destruct Hx as [->|Hx], Hy as [->|Hy]; auto.
  - exfalso. apply Hnotin. rewrite Hxy. apply list_elem_of_In, in_map, Hy.
  - exfalso. apply Hnotin. rewrite <- Hxy. apply list_elem_of_In, in_map, Hx.
Qed.

Lemma factor_key_ne o o' :
  factor_keys_distinct ->
  In o factor_objects -> In o' factor_objects -> o <> o' -> key o <> key o'.
Proof.
  intros Hnd Ho Ho' Hne Heq. apply Hne.
  exact (NoDup_map_inj key factor_objects o o' Hnd Ho Ho' Heq).
Qed.

Lemma present_factor c o :
  factor_objects_present c -> In o factor_objects -> present c o.
Proof.
  unfold factor_objects_present. rewrite List.Forall_forall. auto.
Qed.

Lemma factor_objects_present_dictionary c c' :
  (forall k, is_Some (dictionary (mCanOpen c) !! k) ->
             is_Some (dictionary (mCanOpen c') !! k)) ->
  factor_objects_present c -> factor_objects_present c'.
Proof.
  intros Hkeep. unfold factor_objects_present.
  apply List.Forall_impl. intros o. apply Hkeep.
Qed.

Lemma factor_objects_present_setRaw c o v :
  factor_objects_present c -> factor_objects_present (setRaw o v c).
Proof.
  unfold factor_objects_present. apply List.Forall_impl.
  intros o'. apply present_setRaw.
Qed.

Lemma factor_objects_present_setRaw_if_set c o v :
  factor_objects_present c -> factor_objects_present (setRaw_if_set o v c).
Proof.
  unfold setRaw_if_set. destruct (v =? 0); auto using factor_objects_present_setRaw.
Qed.

(** The constructor establishes the invariant. *)
Lemma new_Controller_factor_objects_present node :
  factor_objects_present (new_Controller node).
Proof.
  unfold factor_objects_present, factor_objects, new_Controller.
  repeat apply Forall_cons_2; try apply Forall_nil_2;
    repeat first [apply present_setRaw_eq | apply present_setRaw].
Qed.

Lemma getRaw_setRaw_if_set_ne c o o' v :
  key o <> key o' -> getRaw (setRaw_if_set o v c) o' = getRaw c o'.
Proof.
  intros Hne. unfold setRaw_if_set.
  destruct (v =? 0); [reflexivity | now apply getRaw_setRaw_ne].
Qed.

Lemma getRaw_setRaw_if_set_eq c o v :
  v <> 0 -> getRaw (setRaw_if_set o v c) o = ok (wrap (OBJECT_TYPE o) v).
Proof.
  intros Hv. unfold setRaw_if_set.
  apply Z.eqb_neq in Hv. rewrite Hv. apply getRaw_setRaw_eq.
Qed.

Lemma mMotorParameters_setRaw_if_set c o v :
  mMotorParameters (setRaw_if_set o v c) = mMotorParameters c.
Proof. unfold setRaw_if_set. now destruct (v =? 0). Qed.

Lemma mFactors_setRaw_if_set c o v :
  mFactors (setRaw_if_set o v c) = mFactors c.
Proof. unfold setRaw_if_set. now destruct (v =? 0). Qed.

(** What [computeFactors] returns: the raw objects as they are, the rated
    values in thousandths, and the default encoder scale factor. *)
Lemma computeFactors_ok c f :
  computeFactors c = ok f ->
  getRaw c PositionEncoderResolutionNum = ok (Factors.encoderTicks f) /\
  getRaw c PositionEncoderResolutionDen = ok (Factors.encoderRevolutions f) /\
  getRaw c GearRatioNum = ok (Factors.gearMotorShaftRevolutions f) /\
  getRaw c GearRatioDen = ok (Factors.gearDrivingShaftRevolutions f) /\
  getRaw c FeedConstantNum = ok (Factors.feedLength f) /\
  getRaw c FeedConstantDen = ok (Factors.feedDrivingShaftRevolutions f) /\
  (exists torque,
     getRaw c MotorRatedTorque = ok torque /\
     Factors.ratedTorque f = (double_of_Z torque / double_of_Z 1000)%float) /\
  (exists current,
     getRaw c MotorRatedCurrent = ok current /\
     Factors.ratedCurrent f = (double_of_Z current / double_of_Z 1000)%float) /\
  Factors.encoderScaleFactor f = Factors.encoderScaleFactor Factors.default.
Proof.
  unfold computeFactors. intros H.
  apply bind_ok in H as (ticks & -> & H).
  apply bind_ok in H as (revolutions & -> & H).
  apply bind_ok in H as (gearMotor & -> & H).
  apply bind_ok in H as (gearDriving & -> & H).
  apply bind_ok in H as (feed & -> & H).
  apply bind_ok in H as (feedDriving & -> & H).
  apply bind_ok in H as (torque & -> & H).
  apply bind_ok in H as (current & -> & H).
  injection H as <-. cbn [Factors.update Factors.encoderTicks
    Factors.encoderRevolutions Factors.gearMotorShaftRevolutions
    Factors.gearDrivingShaftRevolutions Factors.feedLength
    Factors.feedDrivingShaftRevolutions Factors.ratedTorque Factors.ratedCurrent
    Factors.encoderScaleFactor].
  repeat split; eauto.
Qed.

Lemma computeFactors_total c :
  factor_objects_present c -> exists f, computeFactors c = ok f.
Proof.
  intros Hinv. unfold computeFactors.
  assert (Hget : forall o, In o factor_objects -> exists v, getRaw c o = ok v).
  { intros o Ho. apply getRaw_present. now apply present_factor. }
  destruct (Hget PositionEncoderResolutionNum) as [? ->]; [cbn; tauto|].
  destruct (Hget PositionEncoderResolutionDen) as [? ->]; [cbn; tauto|].
  destruct (Hget GearRatioNum) as [? ->]; [cbn; tauto|].
  destruct (Hget GearRatioDen) as [? ->]; [cbn; tauto|].
  destruct (Hget FeedConstantNum) as [? ->]; [cbn; tauto|].
  destruct (Hget FeedConstantDen) as [? ->]; [cbn; tauto|].
  destruct (Hget MotorRatedTorque) as [? ->]; [cbn; tauto|].
  destruct (Hget MotorRatedCurrent) as [? ->]; [cbn; tauto|].
  cbn [bind ok]. eauto.
Qed.

(** [computeFactors] reads the dictionary only. *)
Lemma computeFactors_with_mFactors c f :
  computeFactors (with_mFactors c f) = computeFactors c.
Proof. reflexivity. Qed.

Lemma factor_objects_present_overridden c p :
  factor_objects_present c -> factor_objects_present (overridden c p).
Proof.
  intros Hinv. unfold overridden.
  repeat apply factor_objects_present_setRaw_if_set. exact Hinv.
Qed.

Lemma mMotorParameters_overridden c p : mMotorParameters (overridden c p) = p.
Proof.
  unfold overridden. now rewrite !mMotorParameters_setRaw_if_set.
Qed.

(** The two steps of [setMotorParameters] on a state that satisfies the
    invariant: the overrides are written, the rated torque is derived when a
    torque constant is given, and the factors are recomputed from the
    result. *)
Lemma setMotorParameters_ok c p c' :
  factor_objects_present c ->
  setMotorParameters c p = ok c' ->
  exists c7 f,
    (isUnknown (MotorParameters.torqueConstant p) = true /\ c7 = overridden c p
     \/
     isUnknown (MotorParameters.torqueConstant p) = false /\
     exists current torque,
       getRaw (overridden c p) MotorRatedCurrent = ok current /\
       double_to_int (OBJECT_TYPE MotorRatedTorque)
         (double_of_Z (wrap U64 current) * MotorParameters.torqueConstant p)%float
       = ok torque /\
       c7 = setRaw MotorRatedTorque torque (overridden c p)) /\
    factor_objects_present c7 /\
    computeFactors c7 = ok f /\
    c' = with_mFactors c7 f.
Proof.
  intros Hinv H.
  change (setMotorParameters c p) with
    (let* c7 :=
       if isUnknown (MotorParameters.torqueConstant p) then ok (overridden c p)
       else
         let* current := getRaw (overridden c p) MotorRatedCurrent in
         let* torque :=
           double_to_int (OBJECT_TYPE MotorRatedTorque)
             (double_of_Z (wrap U64 current) * MotorParameters.torqueConstant p)%float in
         ok (setRaw MotorRatedTorque torque (overridden c p)) in
     match computeFactors c7 with
     | inr factors => ok (with_mFactors c7 factors)
     | inl ObjectNotRead => ok c7
     | inl e => throw e
     end) in H.
  apply bind_ok in H as (c7 & H7 & H).
  pose proof (factor_objects_present_overridden c p Hinv) as Hinv6.
  assert (Hinv7 : factor_objects_present c7).
  { destruct (isUnknown (MotorParameters.torqueConstant p)).
    - now injection H7 as <-.
    - apply bind_ok in H7 as (current & _ & H7).
      apply bind_ok in H7 as (torque & _ & H7).
      injection H7 as <-. now apply factor_objects_present_setRaw. }
  destruct (computeFactors_total c7 Hinv7) as [f Hf].
  rewrite Hf in H. injection H as <-.
  exists c7, f. split; [|auto].
  destruct (isUnknown (MotorParameters.torqueConstant p)).
  - left. now injection H7 as <-.
  - right. split; [reflexivity|].
    apply bind_ok in H7 as (current & Hcurrent & H7).
    apply bind_ok in H7 as (torque & Htorque & H7).
    injection H7 as <-. eauto.
Qed.

(** [setMotorParameters] keeps the invariant, stores its argument and
    leaves the cached factors equal to what [computeFactors] gives on the
    final dictionary. *)
Lemma setMotorParameters_recomputes c p c' :
  factor_objects_present c ->
  setMotorParameters c p = ok c' ->
  factor_objects_present c' /\
  mMotorParameters c' = p /\
  computeFactors c' = ok (mFactors c').
Proof.
  intros Hinv H.
  destruct (setMotorParameters_ok c p c' Hinv H)
    as (c7 & f & Hc7 & Hinv7 & Hf & ->).
  split; [exact Hinv7|]. split; [|exact Hf].
  change (mMotorParameters (with_mFactors c7 f)) with (mMotorParameters c7).
  destruct Hc7 as [[_ ->]|[_ (current & torque & _ & _ & ->)]];
    apply mMotorParameters_overridden.
Qed.

Ltac in_list := cbn; solve [repeat first [left; reflexivity | right]].

Ltac factor_key_ne Hdistinct :=
  apply (factor_key_ne _ _ Hdistinct); [in_list | in_list | discriminate].

(** A ratio written by [setMotorParameters] is not overwritten by the
    ratios written after it. *)
Lemma getRaw_overridden c p :
  factor_keys_distinct ->
  (MotorParameters.encoderTicks p <> 0 ->
   getRaw (overridden c p) PositionEncoderResolutionNum
   = ok (wrap (OBJECT_TYPE PositionEncoderResolutionNum)
           (MotorParameters.encoderTicks p))) /\
  (MotorParameters.encoderRevolutions p <> 0 ->
   getRaw (overridden c p) PositionEncoderResolutionDen
   = ok (wrap (OBJECT_TYPE PositionEncoderResolutionDen)
           (MotorParameters.encoderRevolutions p))) /\
  (MotorParameters.gearMotorShaftRevolutions p <> 0 ->
   getRaw (overridden c p) GearRatioNum
   = ok (wrap (OBJECT_TYPE GearRatioNum)
           (MotorParameters.gearMotorShaftRevolutions p))) /\
  (MotorParameters.gearDrivingShaftRevolutions p <> 0 ->
   getRaw (overridden c p) GearRatioDen
   = ok (wrap (OBJECT_TYPE GearRatioDen)
           (MotorParameters.gearDrivingShaftRevolutions p))) /\
  (MotorParameters.feedLength p <> 0 ->
   getRaw (overridden c p) FeedConstantNum
   = ok (wrap (OBJECT_TYPE FeedConstantNum) (MotorParameters.feedLength p))) /\
  (MotorParameters.feedDrivingShaftRevolutions p <> 0 ->
   getRaw (overridden c p) FeedConstantDen
   = ok (wrap (OBJECT_TYPE FeedConstantDen)
           (MotorParameters.feedDrivingShaftRevolutions p))).
Proof.
  intros Hd. unfold overridden.
  repeat split; intros Hv;
    repeat (rewrite getRaw_setRaw_if_set_ne by factor_key_ne Hd);
    now apply getRaw_setRaw_if_set_eq.
Qed.

Lemma setMotorParameters_overrides c p c' :
  factor_keys_distinct ->
  factor_objects_present c ->
  setMotorParameters c p = ok c' ->
  overrides_applied p c'.
Proof.
  intros Hd Hinv H.
  destruct (setMotorParameters_ok c p c' Hinv H)
    as (c7 & f & Hc7 & Hinv7 & Hf & ->).
  destruct (computeFactors_ok c7 f Hf)
    as (F1 & F2 & F3 & F4 & F5 & F6 & (t & Ft & Ftorque) & _ & _).
  destruct (getRaw_overridden c p Hd) as (R1 & R2 & R3 & R4 & R5 & R6).
  assert (Hratio : forall o, In o factor_objects -> o <> MotorRatedTorque ->
            getRaw c7 o = getRaw (overridden c p) o).
  { intros o Ho Hne.
    destruct Hc7 as [[_ ->]|[_ (current & torque & _ & _ & ->)]]; [reflexivity|].
    apply getRaw_setRaw_ne.
    apply (factor_key_ne _ _ Hd); [in_list | exact Ho | congruence]. }
  assert (Happlied : forall o v (field : Factors.t -> Z),
            In o factor_objects -> o <> MotorRatedTorque ->
            getRaw c7 o = ok (field f) ->
            (v <> 0 -> getRaw (overridden c p) o = ok (wrap (OBJECT_TYPE o) v)) ->
            ratio_applied (with_mFactors c7 f) o v field).
  { intros o v field Ho Hne Hfield Hraw Hv.
    change (mFactors (with_mFactors c7 f)) with f.
    change (getRaw (with_mFactors c7 f) o) with (getRaw c7 o).
    rewrite (Hratio o Ho Hne) in Hfield |- *.
    rewrite (Hraw Hv) in Hfield |- *.
    injection Hfield as Hfield. auto. }
  unfold overrides_applied.
  split; [apply Happlied; [in_list | discriminate | exact F1 | exact R1]|].
  split; [apply Happlied; [in_list | discriminate | exact F2 | exact R2]|].
  split; [apply Happlied; [in_list | discriminate | exact F3 | exact R3]|].
  split; [apply Happlied; [in_list | discriminate | exact F4 | exact R4]|].
  split; [apply Happlied; [in_list | discriminate | exact F5 | exact R5]|].
  split; [apply Happlied; [in_list | discriminate | exact F6 | exact R6]|].
  clear Happlied Hratio R1 R2 R3 R4 R5 R6 F1 F2 F3 F4 F5 F6.
  intros Hknown.
  change (mFactors (with_mFactors c7 f)) with f.
  destruct Hc7 as [[Hunknown _]|[_ (current & torque & Hcurrent & Htorque & ->)]];
    [congruence|].
  exists current, torque.
  rewrite getRaw_setRaw_eq in Ft. injection Ft as <-.
  split; [|split; [exact Htorque|split; [apply getRaw_setRaw_eq | exact Ftorque]]].
  rewrite <- Hcurrent.
  change (getRaw (with_mFactors (setRaw MotorRatedTorque torque (overridden c p)) f))
    with (getRaw (setRaw MotorRatedTorque torque (overridden c p))).
  apply getRaw_setRaw_ne. factor_key_ne Hd.
Qed.

(** [setMotorParameters] returns on every state that satisfies the
    invariant, provided the cast of the derived rated torque is defined. *)
Lemma setMotorParameters_total c p :
  factor_objects_present c ->
  torque_defined c p ->
  exists c', setMotorParameters c p = ok c'.
Proof.
  intros Hinv Hdef.
  change (setMotorParameters c p) with
    (let* c7 :=
       if isUnknown (MotorParameters.torqueConstant p) then ok (overridden c p)
       else
         let* current := getRaw (overridden c p) MotorRatedCurrent in
         let* torque :=
           double_to_int (OBJECT_TYPE MotorRatedTorque)
             (double_of_Z (wrap U64 current) * MotorParameters.torqueConstant p)%float in
         ok (setRaw MotorRatedTorque torque (overridden c p)) in
     match computeFactors c7 with
     | inr factors => ok (with_mFactors c7 factors)
     | inl ObjectNotRead => ok c7
     | inl e => throw e
     end).
  pose proof (factor_objects_present_overridden c p Hinv) as Hinv6.
  assert (Hc7 : exists c7,
            (if isUnknown (MotorParameters.torqueConstant p)
             then ok (overridden c p)
             else
               let* current := getRaw (overridden c p) MotorRatedCurrent in
               let* torque :=
                 double_to_int (OBJECT_TYPE MotorRatedTorque)
                   (double_of_Z (wrap U64 current)
                    * MotorParameters.torqueConstant p)%float in
               ok (setRaw MotorRatedTorque torque (overridden c p))) = ok c7 /\
            factor_objects_present c7).
  { destruct (isUnknown (MotorParameters.torqueConstant p)) eqn:Hu; [eauto|].
    destruct Hdef as [Hdef|(current & torque & Hcurrent & Htorque)];
      [congruence|].
    rewrite Hcurrent. cbn [bind ok]. rewrite Htorque. cbn [bind ok].
    eauto using factor_objects_present_setRaw. }
  destruct Hc7 as (c7 & -> & Hinv7). cbn [bind ok].
  destruct (computeFactors_total c7 Hinv7) as [f ->]. eauto.
Qed.

(** ** Processing a message *)

Lemma factors_updated_Ack id subId :
  factors_updated (updatedObjects (Ack id subId)) = false.
Proof. reflexivity. Qed.

(** When the result reports the FACTORS group, [process] ended with
    [setMotorParameters] on the stored parameters. *)
Lemma process_factors_updated c msg c' r :
  process c msg = ok (c', r) ->
  factors_updated (updatedObjects r) = true ->
  setMotorParameters
    (with_mCanOpen c (fst (sm_process (mCanOpen c) msg))) (mMotorParameters c)
  = ok c'.
Proof.
  unfold process. destruct (sm_process (mCanOpen c) msg) as [sm canUpdate].
  cbn [fst]. intros H Hf.
  destruct (mode canUpdate).
  - set (update := fold_left _ _ _) in H.
    destruct (factors_updated update) eqn:Hu.
    + apply bind_ok in H as (c2 & H2 & H). injection H as <- <-. exact H2.
    + injection H as <- <-. cbn in Hf. congruence.
  - destruct (updated canUpdate) as [|object rest]; [discriminate|].
    injection H as <- <-. rewrite factors_updated_Ack in Hf. discriminate.
  - set (update := fold_left _ _ _) in H.
    destruct (factors_updated update) eqn:Hu.
    + apply bind_ok in H as (c2 & H2 & H). injection H as <- <-. exact H2.
    + injection H as <- <-. cbn in Hf. congruence.
Qed.

Lemma factor_objects_present_engine c msg :
  engine_keeps_objects ->
  factor_objects_present c ->
  factor_objects_present (with_mCanOpen c (fst (sm_process (mCanOpen c) msg))).
Proof.
  intros Hkeep. apply factor_objects_present_dictionary.
  intros k. apply Hkeep.
Qed.

(** [process] keeps the invariant. *)
Lemma process_factor_objects_present c msg c' r :
  engine_keeps_objects ->
  factor_objects_present c ->
  process c msg = ok (c', r) ->
  factor_objects_present c'.
Proof.
  intros Hkeep Hinv H.
  pose proof (factor_objects_present_engine c msg Hkeep Hinv) as Hinv1.
  destruct (factors_updated (updatedObjects r)) eqn:Hf.
  - apply (process_factors_updated _ _ _ _ H) in Hf.
    now apply (setMotorParameters_recomputes _ _ _ Hinv1 Hf).
  - revert H Hf Hinv1. unfold process.
    destruct (sm_process (mCanOpen c) msg) as [sm canUpdate]. cbn [fst].
    intros H Hf Hinv1.
    destruct (mode canUpdate).
    + set (update := fold_left _ _ _) in H.
      destruct (factors_updated update) eqn:Hu.
      * apply bind_ok in H as (c2 & H2 & H). injection H as <- <-.
        cbn in Hf. congruence.
      * now injection H as <- <-.
    + destruct (updated canUpdate) as [|object rest]; [discriminate|].
      now injection H as <- <-.
    + set (update := fold_left _ _ _) in H.
      destruct (factors_updated update) eqn:Hu.
      * apply bind_ok in H as (c2 & H2 & H). injection H as <- <-.
        cbn in Hf. congruence.
      * now injection H as <- <-.
Qed.

(** [process] returns on every state that satisfies the invariant, unless
    the engine announces an acknowledgment without naming an object or the
    cast of the derived rated torque is undefined. *)
Lemma process_total c msg :
  engine_keeps_objects ->
  factor_objects_present c ->
  (let canUpdate := snd (sm_process (mCanOpen c) msg) in
   mode canUpdate = PROCESSED_SDO_INITIATE_DOWNLOAD -> updated canUpdate <> []) ->
  torque_defined (with_mCanOpen c (fst (sm_process (mCanOpen c) msg)))
    (mMotorParameters c) ->
  exists c' r, process c msg = ok (c', r).
Proof.
  intros Hkeep Hinv Hack Hdef.
  pose proof (factor_objects_present_engine c msg Hkeep Hinv) as Hinv1.
  destruct (setMotorParameters_total _ _ Hinv1 Hdef) as [c2 Hc2].
  revert Hack Hc2. unfold process.
  destruct (sm_process (mCanOpen c) msg) as [sm canUpdate]. cbn [fst snd].
  intros Hack Hc2.
  destruct (mode canUpdate).
  - destruct (factors_updated _); [|eauto].
    change (mMotorParameters (with_mCanOpen c sm)) with (mMotorParameters c).
    rewrite Hc2. cbn [bind ok]. eauto.
  - destruct (updated canUpdate); [now destruct Hack | eauto].
  - destruct (factors_updated _); [|eauto].
    change (mMotorParameters (with_mCanOpen c sm)) with (mMotorParameters c).
    rewrite Hc2. cbn [bind ok]. eauto.
Qed.

(** Every state a controller goes through satisfies the invariant. *)
Lemma reachable_factor_objects_present c :
  engine_keeps_objects -> reachable c -> factor_objects_present c.
Proof.
  intros Hkeep Hreach.
  induction Hreach as
    [ node | c msg c' r _ IH H | c p c' _ IH H | c scale _ IH | c torque _ IH
    | c base _ IH | c pdoIndex control_mode parameters msgs c' _ IH H ].
  - apply new_Controller_factor_objects_present.
  - exact (process_factor_objects_present _ _ _ _ Hkeep IH H).
  - now apply (setMotorParameters_recomputes _ _ _ IH H).
  - exact IH.
  - exact IH.
  - exact IH.
  - unfold configureControlPDO in H.
    apply bind_ok in H as (mapping & _ & H). injection H as _ <-. exact IH.
Qed.

(** C3: when the result of [process] reports the FACTORS group, [process]
    has run [setMotorParameters] with the stored parameters on the refreshed
    dictionary: the parameters are still stored, the cached factors are the
    ones [computeFactors] gives on the final dictionary, and every override
    is in force in the raw objects and in the factors. *)
Theorem process_reapplies_motor_parameters c msg c' r :
  engine_keeps_objects ->
  factor_keys_distinct ->
  factor_objects_present c ->
  process c msg = ok (c', r) ->
  factors_updated (updatedObjects r) = true ->
  setMotorParameters
    (with_mCanOpen c (fst (sm_process (mCanOpen c) msg))) (mMotorParameters c)
  = ok c' /\
  mMotorParameters c' = mMotorParameters c /\
  computeFactors c' = ok (getFactors c') /\
  overrides_applied (mMotorParameters c) c'.
Proof.
  intros Hkeep Hd Hinv H Hf.
  pose proof (factor_objects_present_engine c msg Hkeep Hinv) as Hinv1.
  pose proof (process_factors_updated _ _ _ _ H Hf) as Hset.
  destruct (setMotorParameters_recomputes _ _ _ Hinv1 Hset) as (_ & Hp & Hc).
  split; [exact Hset|]. split; [exact Hp|]. split; [exact Hc|].
  exact (setMotorParameters_overrides _ _ _ Hd Hinv1 Hset).
Qed.

(** C10: when the result of [process] reports the FACTORS group, the encoder
    scale factor of the cached factors is the default one again, whatever
    [setEncoderScaleFactor] had stored, while the motor parameters are still
    the stored ones. *)
Theorem process_resets_encoderScaleFactor c msg c' r :
  engine_keeps_objects ->
  factor_objects_present c ->
  process c msg = ok (c', r) ->
  factors_updated (updatedObjects r) = true ->
  Factors.encoderScaleFactor (getFactors c') = 1%float /\
  mMotorParameters c' = mMotorParameters c.
Proof.
  intros Hkeep Hinv H Hf.
  pose proof (factor_objects_present_engine c msg Hkeep Hinv) as Hinv1.
  pose proof (process_factors_updated _ _ _ _ H Hf) as Hset.
  destruct (setMotorParameters_recomputes _ _ _ Hinv1 Hset) as (_ & Hp & Hc).
  split; [|exact Hp].
  apply computeFactors_ok in Hc.
  destruct Hc as (_ & _ & _ & _ & _ & _ & _ & _ & Hscale).
  exact Hscale.
Qed.

Lemma setEncoderScaleFactor_stored c scale :
  Factors.encoderScaleFactor (getFactors (setEncoderScaleFactor c scale)) = scale.
Proof. reflexivity. Qed.

(** C4 (amended): the result of [process] is an acknowledgment exactly when
    the engine classified the message as the reply to a download; it then
    carries the index and subindex of the acknowledged object, and no group
    is reported as updated; a result that is no acknowledgment carries its
    group mask only. *)
Theorem process_ack_or_groups c msg c' r :
  process c msg = ok (c', r) ->
  let canUpdate := snd (sm_process (mCanOpen c) msg) in
  (mode canUpdate = PROCESSED_SDO_INITIATE_DOWNLOAD ->
   exists object rest,
     updated canUpdate = object :: rest /\
     r = Ack (fst object) (snd object) /\
     isAck r = true /\
     (ackedObjectId r, ackedObjectSubId r) = object /\
     updatedObjects r = 0 /\
     forall groups, hasOneUpdated r groups = false) /\
  (mode canUpdate <> PROCESSED_SDO_INITIATE_DOWNLOAD ->
   isAck r = false /\
   r = UpdatedObjects
         (fold_left sdo_update_case (updated canUpdate)
            (mode_update_case (mode canUpdate)))) /\
  (isAck r = true -> forall groups, hasOneUpdated r groups = false).
Proof.
  unfold process. destruct (sm_process (mCanOpen c) msg) as [sm canUpdate].
  cbn [snd]. intros H.
  destruct (mode canUpdate) eqn:Hmode.
  - set (update := fold_left _ _ _) in *.
    assert (Hr : r = UpdatedObjects update).
    { destruct (factors_updated update).
      - apply bind_ok in H as (c2 & _ & H). now injection H as _ <-.
      - now injection H as _ <-. }
    subst r. repeat split; try discriminate.
  - destruct (updated canUpdate) as [|object rest]; [discriminate|].
    injection H as _ <-.
    split; [|split; [congruence|reflexivity]].
    intros _. exists object, rest.
    repeat split. now destruct object.
  - set (update := fold_left _ _ _) in *.
    assert (Hr : r = UpdatedObjects update).
    { destruct (factors_updated update).
      - apply bind_ok in H as (c2 & _ & H). now injection H as _ <-.
      - now injection H as _ <-. }
    subst r. repeat split; try discriminate.
Qed.

End Properties.

(** * The properties on the CiA-402 catalogue *)

Section Runs.
Import DS402.

Lemma engine_keeps : engine_keeps_objects.
Proof.
  intros sm msg k Hk. destruct msg; cbn; try exact Hk.
  destruct (decide ((id, subId) = k)) as [->|Hne].
  - rewrite lookup_insert_eq. eauto.
  - now rewrite lookup_insert_ne.
Qed.

Lemma keys_distinct : factor_keys_distinct.
Proof.
  unfold factor_keys_distinct.
  apply (bool_decide_unpack _). vm_compute. reflexivity.
Qed.

Lemma configured_present : factor_objects_present configured.
Proof.
  unfold factor_objects_present, factor_objects.
  repeat apply Forall_cons_2; try apply Forall_nil_2;
    vm_compute; eauto.
Qed.

Lemma refreshed_ok : process configured refresh = ok refreshed.
Proof. vm_compute. reflexivity. Qed.

(** C2 (evaluation of the code): with a rated torque of 1, the target whose
    scaled value is -32768 fits the signed 16-bit field and is refused as
    out of range, and the target whose scaled value is 32768 does not fit
    and passes the range check (the cast that follows is undefined). *)
Theorem setTorqueTarget_bounds_swapped :
  let scaled (target : float) :=
    (target / Factors.ratedTorque (getFactors rated) * double_of_Z 1000)%float in
  let lowest := (double_of_Z (-32768) / double_of_Z 1000)%float in
  let above := (double_of_Z 32768 / double_of_Z 1000)%float in
  Factors.ratedTorque (getFactors rated) = 1%float /\
  (trunc (scaled lowest) = Some (-32768) /\
   in_range I16 (-32768) = true /\
   setTorqueTarget rated lowest = throw OutOfRange) /\
  (trunc (scaled above) = Some 32768 /\
   in_range I16 32768 = false /\
   setTorqueTarget rated above = throw UndefinedBehaviour).
Proof.
  vm_compute. repeat split; reflexivity.
Qed.

(** A run of C5: a fresh controller refuses the target 0. *)
Lemma setTorqueTarget_unknown_rated_torque_run :
  setTorqueTarget (new_Controller 1) 0%float = throw LogicError /\
  forall msg, setTorqueTarget (new_Controller 1) 0%float <> ok msg.
Proof.
  apply setTorqueTarget_unknown_rated_torque. reflexivity.
Defined.

(** A run of C6: limits read as [0, 0] and a maximum speed read as -1. *)
Lemma getJointLimits_sentinels_run :
  exists r,
    getJointLimits measured = ok r /\
    JointState.position (range_min r) = (- infinity)%float /\
    JointState.position (range_max r) = infinity /\
    JointState.speed (range_min r) = (- infinity)%float /\
    JointState.speed (range_max r) = infinity /\
    JointState.acceleration (range_min r) = (- infinity)%float /\
    JointState.acceleration (range_max r) = infinity.
Proof.
  destruct (getJointLimits measured) as [e|r] eqn:Hr; [vm_compute in Hr; discriminate|].
  exists r. split; [reflexivity|].
  destruct (getJointLimits_sentinels measured r Hr) as (Hposition & Hspeed & Hmin & Hmax).
  destruct (Hposition 0 0) as [Hlo Hhi]; try (vm_compute; reflexivity).
  destruct (Hspeed 4294967295) as [Hslo Hshi]; try (vm_compute; reflexivity).
  exact (conj Hlo (conj Hhi (conj Hslo (conj Hshi (conj Hmin Hmax))))).
Defined.

(** A run of C7: only the position is requested; the velocity and the
    current were never read. *)
Lemma getJointState_requested_fields_run :
  joint_state_of measured JOINT_POSITION
    (JointState.set_position JointState.default (double_of_Z 900)) /\
  getJointState (setRaw VelocityActualValue 7 measured) JOINT_POSITION
  = getJointState measured JOINT_POSITION.
Proof.
  destruct (getJointState_requested_fields measured JOINT_POSITION) as [Hstate Hframe].
  split.
  - apply Hstate. vm_compute. reflexivity.
  - apply Hframe.
    + reflexivity.
    + reflexivity.
    + intros o Ho. vm_compute in Ho. destruct Ho as [<-|[]].
      vm_compute. reflexivity.
Defined.

(** A run of C3: the drive reports an encoder resolution of 1; the override
    of 4096 is in force again when [process] returns. *)
Lemma process_reapplies_motor_parameters_run :
  Factors.encoderTicks (getFactors (fst refreshed)) = 4096 /\
  getRaw (fst refreshed) PositionEncoderResolutionNum = ok 4096 /\
  mMotorParameters (fst refreshed) = parameters /\
  computeFactors (fst refreshed) = ok (getFactors (fst refreshed)).
Proof.
  destruct (process_reapplies_motor_parameters (eng := engine) configured refresh
              (fst refreshed) (snd refreshed))
    as (_ & Hp & Hc & Ho).
  - exact engine_keeps.
  - exact keys_distinct.
  - exact configured_present.
  - vm_compute. reflexivity.
  - vm_compute. reflexivity.
  - destruct Ho as (Hticks & _).
    destruct Hticks as [Hraw Hfield]; [vm_compute; discriminate|].
    exact (conj Hfield (conj Hraw (conj Hp Hc))).
Defined.

(** A run of C10: the scale factor 2 is gone after the refresh. *)
Lemma process_resets_encoderScaleFactor_run :
  Factors.encoderScaleFactor (getFactors configured) = 2%float /\
  Factors.encoderScaleFactor (getFactors (fst refreshed)) = 1%float /\
  mMotorParameters (fst refreshed) = mMotorParameters configured.
Proof.
  split; [vm_compute; reflexivity|].
  apply (process_resets_encoderScaleFactor (eng := engine) configured refresh
           (fst refreshed) (snd refreshed)).
  - exact engine_keeps.
  - exact configured_present.
  - vm_compute. reflexivity.
  - vm_compute. reflexivity.
Defined.

(** A run of C4 (amended): the reply to a write of the torque target. *)
Lemma process_ack_or_groups_run :
  exists c' r,
    process (eng := engine) (new_Controller 1) torque_written = ok (c', r) /\
    isAck r = true /\
    (ackedObjectId r, ackedObjectSubId r) = key TargetTorque /\
    forall groups, hasOneUpdated r groups = false.
Proof.
  destruct (process (eng := engine) (new_Controller 1) torque_written)
    as [e|[c' r]] eqn:H;
    [vm_compute in H; discriminate|].
  exists c', r. split; [reflexivity|].
  destruct (process_ack_or_groups (eng := engine) (new_Controller 1) torque_written c' r H)
    as (Hack & _ & _).
  destruct Hack as (object & rest & Hupdated & -> & Hisack & Hid & _ & Hnone);
    [reflexivity|].
  vm_compute in Hupdated. injection Hupdated as Hobject _.
  rewrite <- Hobject in Hid, Hisack, Hnone |- *.
  exact (conj Hisack (conj Hid Hnone)).
Defined.

(** C4 (the claim as stated fails): two controllers that differ in the
    last-known value of the torque target return the same acknowledgment,
    so the result does not carry that value. *)
Lemma ack_carries_no_value : ~ ack_carries_value.
Proof.
  intros [value_of H].
  set (r := Ack (object_id TargetTorque) (object_sub_id TargetTorque)).
  assert (Hrun : forall v,
            process (eng := engine) (setRaw TargetTorque v (new_Controller 1))
              torque_written
            = ok (setRaw TargetTorque v (new_Controller 1), r)).
  { intros v. reflexivity. }
  assert (H5 : value_of r = 5).
  { apply (H _ _ _ _ _ (Hrun 5) eq_refl). vm_compute. reflexivity. }
  assert (H7 : value_of r = 7).
  { apply (H _ _ _ _ _ (Hrun 7) eq_refl). vm_compute. reflexivity. }
  congruence.
Qed.

End Runs.

(** * Further properties of the controller *)

Section More.
Context {cat : Catalogue} {eng : Engine} {bld : Builders} {inv : InverseFactors}
  {grp : JointStateGroup}.

Ltac in_list := cbn; solve [repeat first [left; reflexivity | right]].

Ltac factor_key_ne Hdistinct :=
  apply (factor_key_ne _ _ Hdistinct); [in_list | in_list | discriminate].

(** ** The mask [process] reports *)

Lemma sdo_update_case_lor update object :
  sdo_update_case update object = Z.lor update (object_groups object).
Proof.
  unfold object_groups, sdo_update_case.
  destruct (find _ SDO_UPDATE_CASES); [reflexivity|].
  now rewrite Z.lor_0_r.
Qed.

Lemma fold_sdo_update_case_testbit objects update n :
  Z.testbit (fold_left sdo_update_case objects update) n
  = Z.testbit update n || existsb (fun object => Z.testbit (object_groups object) n) objects.
Proof.
  revert update. induction objects as [|object objects IH]; intros update; cbn.
  - now rewrite orb_false_r.
  - rewrite IH, sdo_update_case_lor, Z.lor_spec. now rewrite orb_assoc.
Qed.

(** The two ways [process] returns. *)
Lemma process_result c msg c' r :
  process c msg = ok (c', r) ->
  let sm := fst (sm_process (mCanOpen c) msg) in
  let canUpdate := snd (sm_process (mCanOpen c) msg) in
  let update :=
    fold_left sdo_update_case (updated canUpdate) (mode_update_case (mode canUpdate)) in
  (mode canUpdate = PROCESSED_SDO_INITIATE_DOWNLOAD /\
   (exists object rest,
      updated canUpdate = object :: rest /\ r = Ack (fst object) (snd object)) /\
   c' = with_mCanOpen c sm)
  \/
  (mode canUpdate <> PROCESSED_SDO_INITIATE_DOWNLOAD /\
   r = UpdatedObjects update /\
   (factors_updated update = true /\
    setMotorParameters (with_mCanOpen c sm) (mMotorParameters c) = ok c'
    \/
    factors_updated update = false /\ c' = with_mCanOpen c sm)).
Proof.
  unfold process. destruct (sm_process (mCanOpen c) msg) as [sm canUpdate].
  cbn [fst snd]. intros H.
  destruct (mode canUpdate) eqn:Hmode.
  - right. split; [discriminate|].
    destruct (factors_updated _) eqn:Hu.
    + apply bind_ok in H as (c2 & H2 & H). injection H as <- <-. auto.
    + injection H as <- <-. auto.
  - left. split; [reflexivity|].
    destruct (updated canUpdate) as [|object rest]; [discriminate|].
    injection H as <- <-. eauto.
  - right. split; [discriminate|].
    destruct (factors_updated _) eqn:Hu.
    + apply bind_ok in H as (c2 & H2 & H). injection H as <- <-. auto.
    + injection H as <- <-. auto.
Qed.

(** X1: a group bit is set in the mask [process] returns exactly when the
    message is a heartbeat and the bit belongs to the heartbeat group, or one
    of the updated objects matches a label of the switch whose group mask
    has the bit: the mask depends neither on the order of the updated
    objects nor on repetitions. *)
Theorem process_reports_groups c msg c' r n :
  process c msg = ok (c', r) ->
  isAck r = false ->
  let canUpdate := snd (sm_process (mCanOpen c) msg) in
  Z.testbit (updatedObjects r) n = true <->
  (mode canUpdate = PROCESSED_HEARTBEAT /\
   Z.testbit (wrap U64 Heartbeat_UPDATE_ID) n = true) \/
  (exists object,
     In object (updated canUpdate) /\ Z.testbit (object_groups object) n = true).
Proof.
  intros H Hack canUpdate.
  destruct (process_result c msg c' r H) as [(_ & (o & rest & _ & ->) & _)|(_ & -> & _)];
    [discriminate|].
  fold canUpdate. cbn [updatedObjects UpdatedObjects].
  rewrite fold_sdo_update_case_testbit, orb_true_iff, existsb_exists.
  split; (intros [Hm|Hobj]; [left|right; exact Hobj]).
  - destruct (mode canUpdate); cbn in Hm;
      try (rewrite Z.testbit_0_l in Hm; discriminate).
    split; [reflexivity|exact Hm].
  - destruct Hm as [-> Hbit]. exact Hbit.
Qed.

(** X2: an updated object that is a label of the switch contributes its own
    group mask, and an object that is no label contributes nothing, so its
    update is never reported. *)
Theorem object_groups_of_label :
  NoDup (map objectFullId SDO_UPDATE_CASES) ->
  (forall o, In o SDO_UPDATE_CASES -> object_groups (key o) = wrap U64 (UPDATE_ID o)) /\
  (forall object,
     (forall o, In o SDO_UPDATE_CASES -> objectFullId o <> fullId (fst object) (snd object)) ->
     forall update, sdo_update_case update object = update).
Proof.
  intros Hnd. split.
  - intros o Ho. unfold object_groups, sdo_update_case. cbn [key fst snd].
    fold (objectFullId o).
    destruct (find _ SDO_UPDATE_CASES) as [o'|] eqn:Hfind.
    + apply find_some in Hfind as [Ho' Heq]. apply Z.eqb_eq in Heq.
      rewrite (NoDup_map_inj objectFullId SDO_UPDATE_CASES o' o Hnd Ho' Ho Heq).
      reflexivity.
    + apply (find_none _ _ Hfind) in Ho. rewrite Z.eqb_refl in Ho. discriminate.
  - intros object Hout update. unfold sdo_update_case.
    destruct (find _ SDO_UPDATE_CASES) as [o'|] eqn:Hfind; [|reflexivity].
    apply find_some in Hfind as [Ho' Heq]. apply Z.eqb_eq in Heq.
    now destruct (Hout o' Ho').
Qed.

(** ** What the operations leave alone *)

Lemma mFactors_with_mCanOpen c sm : mFactors (with_mCanOpen c sm) = mFactors c.
Proof. reflexivity. Qed.

Lemma setRaw_if_set_fields o v c :
  mRatedTorque (setRaw_if_set o v c) = mRatedTorque c /\
  mZeroPosition (setRaw_if_set o v c) = mZeroPosition c /\
  rpdoMappings (mCanOpen (setRaw_if_set o v c)) = rpdoMappings (mCanOpen c) /\
  tpdoMappings (mCanOpen (setRaw_if_set o v c)) = tpdoMappings (mCanOpen c).
Proof. unfold setRaw_if_set. now destruct (v =? 0). Qed.

Lemma overridden_fields c p :
  mFactors (overridden c p) = mFactors c /\
  mRatedTorque (overridden c p) = mRatedTorque c /\
  mZeroPosition (overridden c p) = mZeroPosition c /\
  rpdoMappings (mCanOpen (overridden c p)) = rpdoMappings (mCanOpen c) /\
  tpdoMappings (mCanOpen (overridden c p)) = tpdoMappings (mCanOpen c).
Proof.
  unfold overridden. rewrite !mFactors_setRaw_if_set.
  repeat match goal with
  | |- context [setRaw_if_set ?o ?v ?c] =>
      destruct (setRaw_if_set_fields o v c) as (-> & -> & -> & ->)
  end.
  repeat split.
Qed.

(** The state [setMotorParameters] returns, whether or not the objects
    [computeFactors] reads have values. *)
Lemma setMotorParameters_shape c p c' :
  setMotorParameters c p = ok c' ->
  exists c7,
    (c7 = overridden c p \/ exists torque, c7 = setRaw MotorRatedTorque torque (overridden c p)) /\
    (c' = c7 \/ exists f, c' = with_mFactors c7 f).
Proof.
  intros H.
  change (setMotorParameters c p) with
    (let* c7 :=
       if isUnknown (MotorParameters.torqueConstant p) then ok (overridden c p)
       else
         let* current := getRaw (overridden c p) MotorRatedCurrent in
         let* torque :=
           double_to_int (OBJECT_TYPE MotorRatedTorque)
             (double_of_Z (wrap U64 current) * MotorParameters.torqueConstant p)%float in
         ok (setRaw MotorRatedTorque torque (overridden c p)) in
     match computeFactors c7 with
     | inr factors => ok (with_mFactors c7 factors)
     | inl ObjectNotRead => ok c7
     | inl e => throw e
     end) in H.
  apply bind_ok in H as (c7 & H7 & H). exists c7. split.
  - destruct (isUnknown (MotorParameters.torqueConstant p)).
    + left. now injection H7 as <-.
    + right. apply bind_ok in H7 as (current & _ & H7).
      apply bind_ok in H7 as (torque & _ & H7). injection H7 as <-. eauto.
  - destruct (computeFactors c7) as [[]|f]; try discriminate; injection H as <-; eauto.
Qed.

(** [setMotorParameters] stores its argument and touches neither the zero
    position, nor the rated torque given by [setRatedTorque], nor the
    declared PDO mappings. *)
Lemma setMotorParameters_frame c p c' :
  setMotorParameters c p = ok c' ->
  mMotorParameters c' = p /\
  mZeroPosition c' = mZeroPosition c /\
  mRatedTorque c' = mRatedTorque c /\
  rpdoMappings (mCanOpen c') = rpdoMappings (mCanOpen c) /\
  tpdoMappings (mCanOpen c') = tpdoMappings (mCanOpen c).
Proof.
  intros H.
  destruct (setMotorParameters_shape c p c' H) as (c7 & Hc7 & Hc').
  destruct (overridden_fields c p) as (_ & Ht & Hz & Hr & Hx).
  pose proof (mMotorParameters_overridden c p) as Hp.
  assert (H7 : mMotorParameters c7 = p /\
               mZeroPosition c7 = mZeroPosition c /\
               mRatedTorque c7 = mRatedTorque c /\
               rpdoMappings (mCanOpen c7) = rpdoMappings (mCanOpen c) /\
               tpdoMappings (mCanOpen c7) = tpdoMappings (mCanOpen c)).
  { destruct Hc7 as [->|[torque ->]]; cbn; auto. }
  destruct Hc' as [->|[f ->]]; [exact H7|]. exact H7.
Qed.

(** X3: [process] never changes the zero position, the rated torque given by
    [setRatedTorque], the stored motor parameters or the declared PDO
    mappings beyond what the engine does; and unless its result reports the
    FACTORS group (in particular on an acknowledgment) the cached factors
    are unchanged too: only the engine state moves. *)
Theorem process_frame c msg c' r :
  process c msg = ok (c', r) ->
  mZeroPosition c' = mZeroPosition c /\
  mRatedTorque c' = mRatedTorque c /\
  mMotorParameters c' = mMotorParameters c /\
  (factors_updated (updatedObjects r) = false ->
   c' = with_mCanOpen c (fst (sm_process (mCanOpen c) msg))).
Proof.
  intros H.
  destruct (process_result c msg c' r H)
    as [(_ & (o & rest & _ & ->) & ->)|(_ & -> & [[Hu Hset]|[Hu ->]])].
  - repeat split.
  - apply setMotorParameters_frame in Hset as (Hp & Hz & Ht & _).
    cbn [updatedObjects UpdatedObjects]. rewrite Hu.
    repeat split; auto. discriminate.
  - repeat split.
Qed.

(** ** Applying the motor parameters twice *)

Lemma setRaw_id c o v :
  dictionary (mCanOpen c) !! key o = Some (wrap (OBJECT_TYPE o) v) ->
  setRaw o v c = c.
Proof.
  destruct c as [[node d rpdo tpdo] torque factors zero p].
  unfold setRaw, with_mCanOpen, sm_set. cbn. intros H.
  now rewrite (insert_id d _ _ H).
Qed.

Lemma setRaw_if_set_id c o v :
  (v <> 0 -> dictionary (mCanOpen c) !! key o = Some (wrap (OBJECT_TYPE o) v)) ->
  setRaw_if_set o v c = c.
Proof.
  intros H. unfold setRaw_if_set. destruct (v =? 0) eqn:Hv; [reflexivity|].
  apply setRaw_id, H. now apply Z.eqb_neq.
Qed.

Lemma lookup_setRaw_if_set_ne c o v k :
  key o <> k ->
  dictionary (mCanOpen (setRaw_if_set o v c)) !! k = dictionary (mCanOpen c) !! k.
Proof.
  intros Hne. unfold setRaw_if_set. destruct (v =? 0); [reflexivity|].
  cbn. now rewrite lookup_insert_ne.
Qed.

Lemma lookup_setRaw_if_set_eq c o v :
  v <> 0 ->
  dictionary (mCanOpen (setRaw_if_set o v c)) !! key o
  = Some (wrap (OBJECT_TYPE o) v).
Proof.
  intros Hv. unfold setRaw_if_set. apply Z.eqb_neq in Hv. rewrite Hv.
  cbn. now rewrite lookup_insert_eq.
Qed.

Lemma overrides_stored_overridden c p :
  factor_keys_distinct -> overrides_stored p (overridden c p).
Proof.
  intros Hd o v Hin Hv. unfold overridden. cbn in Hin.
  repeat (destruct Hin as [Hin|Hin]; [injection Hin as <- <-|]);
    try (destruct Hin);
    repeat (rewrite lookup_setRaw_if_set_ne by factor_key_ne Hd);
    now apply lookup_setRaw_if_set_eq.
Qed.

Lemma overridden_fixed c p :
  mMotorParameters c = p -> overrides_stored p c -> overridden c p = c.
Proof.
  intros Hp Hst.
  assert (E : with_mMotorParameters c p = c).
  { destruct c. cbn in Hp. subst. reflexivity. }
  unfold overridden. rewrite E.
  rewrite (setRaw_if_set_id c PositionEncoderResolutionNum)
    by (apply Hst; in_list).
  rewrite (setRaw_if_set_id c PositionEncoderResolutionDen)
    by (apply Hst; in_list).
  rewrite (setRaw_if_set_id c GearRatioNum) by (apply Hst; in_list).
  rewrite (setRaw_if_set_id c GearRatioDen) by (apply Hst; in_list).
  rewrite (setRaw_if_set_id c FeedConstantNum) by (apply Hst; in_list).
  rewrite (setRaw_if_set_id c FeedConstantDen) by (apply Hst; in_list).
  reflexivity.
Qed.

(** X4: [setMotorParameters] is idempotent: applied again with the same
    parameters to the state it returned, it returns that state. *)
Theorem setMotorParameters_idempotent c p c' :
  factor_keys_distinct ->
  factor_objects_present c ->
  setMotorParameters c p = ok c' ->
  setMotorParameters c' p = ok c'.
Proof.
  intros Hd Hinv H.
  destruct (setMotorParameters_ok c p c' Hinv H)
    as (c7 & f & Hc7 & Hinv7 & Hf & ->).
  pose proof (overrides_stored_overridden c p Hd) as Hst.
  assert (Hp7 : mMotorParameters c7 = p).
  { destruct Hc7 as [[_ ->]|[_ (current & torque & _ & _ & ->)]];
      apply mMotorParameters_overridden. }
  assert (Hst7 : overrides_stored p c7).
  { destruct Hc7 as [[_ ->]|[_ (current & torque & _ & _ & ->)]]; [exact Hst|].
    intros o v Hin Hv. cbn [setRaw with_mCanOpen mCanOpen sm_set dictionary].
    rewrite lookup_insert_ne; [now apply Hst|].
    cbn in Hin.
    repeat (destruct Hin as [Hin|Hin]; [injection Hin as <- <-|]);
      try (destruct Hin); apply not_eq_sym; factor_key_ne Hd. }
  assert (Hov : overridden (with_mFactors c7 f) p = with_mFactors c7 f).
  { apply overridden_fixed; [exact Hp7 | exact Hst7]. }
  change (setMotorParameters (with_mFactors c7 f) p) with
    (let* c8 :=
       if isUnknown (MotorParameters.torqueConstant p)
       then ok (overridden (with_mFactors c7 f) p)
       else
         let* current := getRaw (overridden (with_mFactors c7 f) p) MotorRatedCurrent in
         let* torque :=
           double_to_int (OBJECT_TYPE MotorRatedTorque)
             (double_of_Z (wrap U64 current) * MotorParameters.torqueConstant p)%float in
         ok (setRaw MotorRatedTorque torque (overridden (with_mFactors c7 f) p)) in
     match computeFactors c8 with
     | inr factors => ok (with_mFactors c8 factors)
     | inl ObjectNotRead => ok c8
     | inl e => throw e
     end).
  rewrite Hov.
  assert (H8 : (if isUnknown (MotorParameters.torqueConstant p)
                then ok (with_mFactors c7 f)
                else
                  let* current := getRaw (with_mFactors c7 f) MotorRatedCurrent in
                  let* torque :=
                    double_to_int (OBJECT_TYPE MotorRatedTorque)
                      (double_of_Z (wrap U64 current)
                       * MotorParameters.torqueConstant p)%float in
                  ok (setRaw MotorRatedTorque torque (with_mFactors c7 f)))
               = ok (with_mFactors c7 f)).
  { destruct Hc7 as [[-> _]|[-> (current & torque & Hcurrent & Htorque & ->)]];
      [reflexivity|].
    change (getRaw (with_mFactors (setRaw MotorRatedTorque torque (overridden c p)) f)
              MotorRatedCurrent)
      with (getRaw (setRaw MotorRatedTorque torque (overridden c p)) MotorRatedCurrent).
    rewrite getRaw_setRaw_ne by factor_key_ne Hd.
    rewrite Hcurrent. cbn [bind ok]. rewrite Htorque. cbn [bind ok].
    f_equal. apply setRaw_id. cbn. now rewrite lookup_insert_eq. }
  rewrite H8. cbn [bind ok].
  rewrite computeFactors_with_mFactors, Hf. reflexivity.
Qed.

(** ** Control targets *)

(** X5: [setControlTargets] writes the target objects only: every other entry
    of the dictionary, the cached factors, the stored parameters, the zero
    position and the PDO mappings are unchanged, and no entry is removed;
    targets that are all unset change nothing at all. *)
Theorem setControlTargets_frame c targets c' :
  setControlTargets c targets = ok c' ->
  (forall k, ~ In k target_keys ->
     dictionary (mCanOpen c') !! k = dictionary (mCanOpen c) !! k) /\
  (forall k, is_Some (dictionary (mCanOpen c) !! k) ->
     is_Some (dictionary (mCanOpen c') !! k)) /\
  mFactors c' = mFactors c /\
  mMotorParameters c' = mMotorParameters c /\
  mZeroPosition c' = mZeroPosition c /\
  (hasPosition targets = false -> hasSpeed targets = false ->
   hasEffort targets = false -> c' = c).
Proof.
  unfold setControlTargets. intros H.
  apply bind_ok in H as (c1 & H1 & H).
  apply bind_ok in H as (c2 & H2 & H).
  assert (Hstep : forall (b : bool) (m : Exc Z) o ca cb,
            (if b then let* raw := m in ok (setRaw o (wrap I64 raw) ca) else ok ca)
            = ok cb ->
            In (key o) target_keys ->
            (forall k, ~ In k target_keys ->
               dictionary (mCanOpen cb) !! k = dictionary (mCanOpen ca) !! k) /\
            (forall k, is_Some (dictionary (mCanOpen ca) !! k) ->
               is_Some (dictionary (mCanOpen cb) !! k)) /\
            mFactors cb = mFactors ca /\
            mMotorParameters cb = mMotorParameters ca /\
            mZeroPosition cb = mZeroPosition ca /\
            (b = false -> cb = ca)).
  { intros b m o ca cb Hb Ho. destruct b.
    - apply bind_ok in Hb as (raw & _ & Hb). injection Hb as <-.
      repeat split; try discriminate.
      + intros k Hk. cbn. apply lookup_insert_ne. intros <-. now apply Hk.
      + intros k Hk. cbn. destruct (decide (key o = k)) as [->|Hne].
        * rewrite lookup_insert_eq. eauto.
        * now rewrite lookup_insert_ne.
    - injection Hb as <-. repeat split; auto. }
  apply Hstep in H1 as (D1 & P1 & F1 & M1 & Z1 & E1); [|in_list].
  apply Hstep in H2 as (D2 & P2 & F2 & M2 & Z2 & E2); [|in_list].
  apply Hstep in H as (D3 & P3 & F3 & M3 & Z3 & E3); [|in_list].
  repeat split.
  - intros k Hk. now rewrite D3, D2, D1.
  - auto.
  - congruence.
  - congruence.
  - congruence.
  - intros Hp Hs He. rewrite (E3 He), (E2 Hs), (E1 Hp). reflexivity.
Qed.

(** ** The invariant on every run *)

Lemma factor_objects_present_mCanOpen c sm :
  dictionary sm = dictionary (mCanOpen c) ->
  factor_objects_present c -> factor_objects_present (with_mCanOpen c sm).
Proof.
  intros Hd. apply factor_objects_present_dictionary.
  intros k. cbn. now rewrite Hd.
Qed.

Lemma configureTPDOSlot_dictionary c pdoIndex parameters mapping :
  dictionary (mCanOpen (snd (configureTPDOSlot c pdoIndex parameters mapping)))
  = dictionary (mCanOpen c).
Proof. destruct mapping; reflexivity. Qed.

Lemma configureJointStateUpdatePDOs_dictionary c pdoIndex parameters fields :
  dictionary (mCanOpen (snd (configureJointStateUpdatePDOs c pdoIndex parameters fields)))
  = dictionary (mCanOpen c).
Proof.
  unfold configureJointStateUpdatePDOs.
  destruct (jointStateMappings fields) as [mapping0 mapping1].
  destruct (configureTPDOSlot c pdoIndex parameters mapping0) as [messages0 c0] eqn:H0.
  destruct (configureTPDOSlot c0 _ parameters mapping1) as [messages1 c1] eqn:H1.
  cbn [snd].
  change c1 with (snd (messages1, c1)). rewrite <- H1.
  rewrite configureTPDOSlot_dictionary.
  change c0 with (snd (messages0, c0)). rewrite <- H0.
  apply configureTPDOSlot_dictionary.
Qed.

(** X6: whatever sequence of operations a controller went through since its
    construction, the eight objects [computeFactors] reads have values, so
    [computeFactors] returns: the [ObjectNotRead] handler of
    [setMotorParameters] never runs and the cached factors are never left
    stale by it. *)
Theorem run_computeFactors c :
  engine_keeps_objects ->
  run c ->
  factor_objects_present c /\ exists f, computeFactors c = ok f.
Proof.
  intros Hkeep Hrun.
  assert (Hinv : factor_objects_present c).
  { induction Hrun as
      [ node | c msg c' r _ IH H | c p c' _ IH H | c scale _ IH | c torque _ IH
      | c base _ IH | c targets c' _ IH H
      | c pdoIndex control_mode parameters msgs c' _ IH H
      | c pdoIndex parameters _ IH | c pdoIndex parameters fields _ IH ].
    - apply new_Controller_factor_objects_present.
    - exact (process_factor_objects_present _ _ _ _ Hkeep IH H).
    - now apply (setMotorParameters_recomputes _ _ _ IH H).
    - exact IH.
    - exact IH.
    - exact IH.
    - apply setControlTargets_frame in H as (_ & Hp & _).
      exact (factor_objects_present_dictionary c c' Hp IH).
    - unfold configureControlPDO in H.
      apply bind_ok in H as (mapping & _ & H). injection H as _ <-. exact IH.
    - exact IH.
    - apply (factor_objects_present_dictionary c); [|exact IH].
      intros k. now rewrite configureJointStateUpdatePDOs_dictionary. }
  split; [exact Hinv | now apply computeFactors_total].
Qed.

(** ** Raw objects *)

(** X7: writing a raw object and reading it back gives the value converted to
    the native kind of the object: the value itself when it is in range, a
    wrapped value otherwise; objects with another identity keep their
    value. *)
Theorem setRaw_getRaw c o v :
  getRaw (setRaw o v c) o = ok (wrap (OBJECT_TYPE o) v) /\
  (in_range (OBJECT_TYPE o) v = true -> getRaw (setRaw o v c) o = ok v) /\
  (forall o', key o <> key o' -> getRaw (setRaw o v c) o' = getRaw c o').
Proof.
  split; [apply getRaw_setRaw_eq|]. split.
  - intros Hv. rewrite getRaw_setRaw_eq. now rewrite wrap_in_range.
  - intros o' Hne. now apply getRaw_setRaw_ne.
Qed.

Lemma wrap_difference_zero k s :
  wrap (int64_common k) (wrap k s - wrap I64 (wrap I64 (wrap k s))) = 0.
Proof.
  rewrite wrap_idem.
  pose proof (wrap_range k s) as Hr. unfold in_range, min_int, max_int in Hr.
  apply andb_prop in Hr as [Hlo Hhi]. apply Z.leb_le in Hlo, Hhi.
  destruct k; cbn in Hlo, Hhi;
    try (rewrite (wrap_in_range I64 (wrap _ s))
           by (unfold in_range, min_int, max_int; cbn;
               apply andb_true_intro; split; apply Z.leb_le; lia);
         rewrite Z.sub_diag; reflexivity).
  revert Hlo Hhi. generalize (wrap U64 s). intros raw Hlo Hhi.
  unfold wrap. cbn. Z.to_euclidean_division_equations. lia.
Qed.

Lemma getJointState_position c fields st :
  requested fields UPDATE_JOINT_POSITION = true ->
  getJointState c fields = ok st ->
  exists raw,
    getRaw c PositionActualInternalValue = ok raw /\
    Factors.rawToEncoder (mFactors c)
      (wrap (int64_common (OBJECT_TYPE PositionActualInternalValue))
         (raw - mZeroPosition c))
    = ok (JointState.position st).
Proof.
  intros Hreq H. unfold getJointState in H. rewrite Hreq in H.
  apply bind_ok in H as (st1 & H1 & H).
  apply bind_ok in H1 as (raw & Hraw & H1).
  apply bind_ok in H1 as (p & Hp & H1). injection H1 as <-.
  apply bind_ok in H as (st2 & H2 & H).
  exists raw. split; [exact Hraw|]. rewrite Hp. f_equal.
  destruct (requested fields UPDATE_JOINT_VELOCITY);
    [ apply bind_ok in H2 as (vel & _ & H2);
      apply bind_ok in H2 as (s & _ & H2) | ];
    injection H2 as <-;
    (destruct (requested fields UPDATE_JOINT_CURRENT);
     [ apply bind_ok in H as (cur & _ & H);
       apply bind_ok in H as (i & _ & H);
       apply bind_ok in H as (e & _ & H) | ];
     injection H as <-; reflexivity).
Qed.

(** X8: taking the current raw position as the zero position makes the position
    [getJointState] reports the conversion of raw 0, as long as the raw
    position does not change. *)
Theorem getJointState_at_zero c z fields st :
  getRawPosition c = ok z ->
  requested fields UPDATE_JOINT_POSITION = true ->
  getJointState (setZeroPosition c z) fields = ok st ->
  Factors.rawToEncoder (mFactors c) 0 = ok (JointState.position st).
Proof.
  intros Hz Hreq H.
  destruct (getJointState_position _ _ _ Hreq H) as (raw & Hraw & Hconv).
  change (getRaw (setZeroPosition c z) PositionActualInternalValue)
    with (getRaw c PositionActualInternalValue) in Hraw.
  unfold getRawPosition in Hz. rewrite Hraw in Hz. injection Hz as <-.
  unfold getRaw in Hraw. apply bind_ok in Hraw as (s & _ & Hraw).
  injection Hraw as <-.
  cbn [mZeroPosition setZeroPosition mFactors] in Hconv.
  now rewrite wrap_difference_zero in Hconv.
Qed.

(** ** Limits *)

(** X9: every range [getJointLimits] returns is symmetric in speed, effort,
    current and acceleration (the lower bound is the negated upper bound),
    and its effort and current bounds are conversions of the same raw
    object, [MaxCurrent]. *)
Theorem getJointLimits_symmetric c r :
  getJointLimits c = ok r ->
  JointState.speed (range_min r) = (- JointState.speed (range_max r))%float /\
  JointState.effort (range_min r) = (- JointState.effort (range_max r))%float /\
  JointState.raw (range_min r) = (- JointState.raw (range_max r))%float /\
  JointState.acceleration (range_min r)
  = (- JointState.acceleration (range_max r))%float /\
  exists limit,
    getRaw c MaxCurrent = ok limit /\
    Factors.rawToTorque (mFactors c) limit = ok (JointState.effort (range_max r)) /\
    Factors.rawToCurrent (mFactors c) limit = ok (JointState.raw (range_max r)).
Proof.
  intros H. unfold getJointLimits in H.
  apply bind_ok in H as (rawMin & HrawMin & H).
  apply bind_ok in H as (rawMax & HrawMax & H).
  apply bind_ok in H as (positions & Hpositions & H).
  apply bind_ok in H as (rawSpeed & HrawSpeed & H).
  apply bind_ok in H as (speeds & Hspeeds & H).
  apply bind_ok in H as (limit & Hlimit & H).
  apply bind_ok in H as (torqueLimit & Htorque & H).
  apply bind_ok in H as (currentLimit & Hcurrent & H).
  injection H as <-. cbn.
  split; [|split; [reflexivity|split; [reflexivity|split; [reflexivity|eauto]]]].
  destruct (wrap I32 rawSpeed <? 0).
  - now injection Hspeeds as <-.
  - apply bind_ok in Hspeeds as (speedLimit & _ & Hspeeds).
    now injection Hspeeds as <-.
Qed.

(** ** Queries and reads *)

(** X10: [queryFactors] asks for every object [computeFactors] reads: once the
    objects it asks for have values, [computeFactors] returns. *)
Theorem queryFactors_covers_computeFactors c :
  queryFactors c = map (queryObject c) queryFactors_objects /\
  ((forall o, In o queryFactors_objects -> present c o) ->
   exists f, computeFactors c = ok f).
Proof.
  split; [reflexivity|]. intros Hall. apply computeFactors_total.
  unfold factor_objects_present. apply List.Forall_forall.
  intros o Ho. apply Hall. cbn in Ho |- *. tauto.
Qed.

Lemma rawToEncoder_error f raw e :
  Factors.rawToEncoder f raw = throw e -> e = LogicError.
Proof.
  unfold Factors.rawToEncoder.
  destruct (Factors.positionDenominator f =? 0)%float; [|discriminate].
  now intros [= <-].
Qed.

Lemma rawToCurrent_error f raw e :
  Factors.rawToCurrent f raw = throw e -> e = LogicError.
Proof.
  unfold Factors.rawToCurrent.
  destruct (isUnknown (Factors.ratedCurrent f)); [|discriminate].
  now intros [= <-].
Qed.

Lemma rawToTorque_error f raw e :
  Factors.rawToTorque f raw = throw e -> e = LogicError.
Proof.
  unfold Factors.rawToTorque.
  destruct (isUnknown (Factors.ratedTorque f)); [|discriminate].
  now intros [= <-].
Qed.

Lemma bind_throw {A B} (m : Exc A) (f : A -> Exc B) e :
  bind m f = throw e -> m = throw e \/ exists a, m = ok a /\ f a = throw e.
Proof. destruct m as [e'|a]; cbn; [intros [= ->]; now left | eauto]. Qed.

(** X11: [queryJointState] and [queryJointLimits] ask for every object
    [getJointState] and [getJointLimits] read: once the objects they ask
    for have values, neither getter fails for a value that was not read,
    whatever the requested fields. *)
Theorem queries_cover_getters c :
  queryJointState c = map (queryObject c) queryJointState_objects /\
  queryJointLimits c = map (queryObject c) queryJointLimits_objects /\
  ((forall o, In o queryJointState_objects -> present c o) ->
   forall fields, getJointState c fields <> throw ObjectNotRead) /\
  ((forall o, In o queryJointLimits_objects -> present c o) ->
   getJointLimits c <> throw ObjectNotRead).
Proof.
  split; [reflexivity|]. split; [reflexivity|]. split.
  - intros Hall fields.
    destruct (getRaw_present c PositionActualInternalValue) as [p Hp];
      [apply Hall; in_list|].
    destruct (getRaw_present c VelocityActualValue) as [v Hv];
      [apply Hall; in_list|].
    destruct (getRaw_present c CurrentActualValue) as [i Hi];
      [apply Hall; in_list|].
    unfold getJointState. rewrite Hp, Hv, Hi. cbn [bind ok].
    intros H.
    repeat match type of H with
    | bind _ _ = throw _ => apply bind_throw in H as [H|(? & _ & H)]
    | (if ?b then _ else _) = throw _ => destruct b
    | Factors.rawToEncoder _ _ = throw _ => apply rawToEncoder_error in H
    | Factors.rawToCurrent _ _ = throw _ => apply rawToCurrent_error in H
    | Factors.rawToTorque _ _ = throw _ => apply rawToTorque_error in H
    end; discriminate.
  - intros Hall.
    destruct (getRaw_present c SoftwarePositionLimitMin) as [lo Hlo];
      [apply Hall; in_list|].
    destruct (getRaw_present c SoftwarePositionLimitMax) as [hi Hhi];
      [apply Hall; in_list|].
    destruct (getRaw_present c MaxMotorSpeed) as [s Hs];
      [apply Hall; in_list|].
    destruct (getRaw_present c MaxCurrent) as [l Hl];
      [apply Hall; in_list|].
    unfold getJointLimits. rewrite Hlo, Hhi, Hs, Hl. cbn [bind ok].
    intros H.
    repeat match type of H with
    | bind _ _ = throw _ => apply bind_throw in H as [H|(? & _ & H)]
    | (if ?b then _ else _) = throw _ => destruct b
    | Factors.rawToEncoder _ _ = throw _ => apply rawToEncoder_error in H
    | Factors.rawToCurrent _ _ = throw _ => apply rawToCurrent_error in H
    | Factors.rawToTorque _ _ = throw _ => apply rawToTorque_error in H
    end; discriminate.
Qed.

(** ** Joint-state PDOs *)

Lemma requested_same fields fields' mask :
  wrap U64 fields = wrap U64 fields' ->
  requested fields mask = requested fields' mask.
Proof. unfold requested. now intros ->. Qed.

(** X12: the two mappings of [configureJointStateUpdatePDOs] together hold each
    requested object once, in the order position, velocity, current; the
    second mapping is used exactly when the mask equals
    [UPDATE_JOINT_STATE], and then holds the current alone. *)
Theorem jointStateMappings_requested fields :
  requested UPDATE_JOINT_STATE UPDATE_JOINT_POSITION = true ->
  requested UPDATE_JOINT_STATE UPDATE_JOINT_VELOCITY = true ->
  requested UPDATE_JOINT_STATE UPDATE_JOINT_CURRENT = true ->
  fst (jointStateMappings fields) ++ snd (jointStateMappings fields)
  = map mapping_entry (requested_objects fields) /\
  (wrap U64 fields = wrap U64 UPDATE_JOINT_STATE ->
   snd (jointStateMappings fields) = [mapping_entry CurrentActualValue]) /\
  (wrap U64 fields <> wrap U64 UPDATE_JOINT_STATE ->
   snd (jointStateMappings fields) = []).
Proof.
  intros Hp Hv Hc. unfold jointStateMappings, requested_objects.
  destruct (wrap U64 fields =? wrap U64 UPDATE_JOINT_STATE) eqn:Heq.
  - apply Z.eqb_eq in Heq.
    rewrite !(requested_same fields UPDATE_JOINT_STATE _ Heq), Hp, Hv, Hc.
    repeat split. congruence.
  - apply Z.eqb_neq in Heq.
    split; [|split; [congruence|reflexivity]].
    destruct (requested fields UPDATE_JOINT_POSITION),
      (requested fields UPDATE_JOINT_VELOCITY),
      (requested fields UPDATE_JOINT_CURRENT); reflexivity.
Qed.



(** ** Doubles that are not numbers *)

Lemma is_nan_Prim2SF f : is_nan f = true <-> Prim2SF f = S754_nan.
Proof.
  unfold Prim2SF. destruct (is_nan f); [tauto|].
  split; [discriminate|].
  destruct (is_zero f); [discriminate|].
  destruct (is_infinity f); [discriminate|].
  destruct (FloatOps.Z.frexp f) as [r e].
  destruct (shr_fexp _ _ _ _ _) as [shr e'].
  destruct (shr_m shr); discriminate.
Qed.

Lemma is_nan_false_Prim2SF f : is_nan f = false <-> Prim2SF f <> S754_nan.
Proof.
  rewrite <- is_nan_Prim2SF. destruct (is_nan f); split; congruence.
Qed.

Lemma shr_1_nonneg mrs : 0 <= shr_m mrs -> 0 <= shr_m (shr_1 mrs).
Proof.
  destruct mrs as [m r s]. cbn.
  destruct m as [|[p|p|]|p]; cbn; lia.
Qed.

Lemma iter_pos_shr_1_nonneg n mrs :
  0 <= shr_m mrs -> 0 <= shr_m (SpecFloat.iter_pos shr_1 n mrs).
Proof.
  revert mrs. induction n as [n IH|n IH|]; intros mrs H; cbn.
  - apply IH, IH, shr_1_nonneg, H.
  - apply IH, IH, H.
  - apply shr_1_nonneg, H.
Qed.

Lemma shr_fexp_nonneg m e l :
  0 <= m -> 0 <= shr_m (fst (shr_fexp prec emax m e l)).
Proof.
  intros H. unfold shr_fexp, shr.
  assert (H0 : 0 <= shr_m (shr_record_of_loc m l)).
  { destruct l as [|[]]; exact H. }
  destruct (fexp prec emax (Zdigits2 m + e) - e); cbn [fst]; auto.
  now apply iter_pos_shr_1_nonneg.
Qed.

Lemma round_nearest_even_nonneg m l : 0 <= m -> 0 <= round_nearest_even m l.
Proof.
  intros H. unfold round_nearest_even.
  destruct l as [|[]]; try lia. destruct (Z.even m); lia.
Qed.

Lemma binary_round_aux_not_nan sx mx ex lx :
  0 <= mx -> binary_round_aux prec emax sx mx ex lx <> S754_nan.
Proof.
  intros H. unfold binary_round_aux.
  pose proof (shr_fexp_nonneg mx ex lx H) as H1.
  destruct (shr_fexp prec emax mx ex lx) as [mrs' e']. cbn [fst] in H1.
  pose proof (shr_fexp_nonneg _ e' loc_Exact
                (round_nearest_even_nonneg _ (loc_of_shr_record mrs') H1)) as H2.
  destruct (shr_fexp prec emax _ e' loc_Exact) as [mrs'' e'']. cbn [fst] in H2.
  destruct (shr_m mrs''); try discriminate; [|lia].
  destruct (e'' <=? emax - prec); discriminate.
Qed.

Lemma binary_round_not_nan sx mx ex : binary_round prec emax sx mx ex <> S754_nan.
Proof.
  unfold binary_round. destruct (shl_align _ _ _) as [mz ez].
  apply binary_round_aux_not_nan. lia.
Qed.

Lemma binary_normalize_not_nan m e szero :
  binary_normalize prec emax m e szero <> S754_nan.
Proof.
  destruct m; cbn; [discriminate | apply binary_round_not_nan ..].
Qed.

Lemma SFldexp_not_nan s e : s <> S754_nan -> SFldexp prec emax s e <> S754_nan.
Proof.
  destruct s; cbn; auto. intros _. apply binary_round_not_nan.
Qed.

Lemma SFopp_not_nan s : s <> S754_nan -> SFopp s <> S754_nan.
Proof. destruct s; cbn; congruence. Qed.

(** The conversion of an integer to a double is a number. *)
Lemma double_of_Z_not_nan z : is_nan (double_of_Z z) = false.
Proof.
  apply is_nan_false_Prim2SF. unfold double_of_Z.
  pose proof (binary_normalize_not_nan z 0 false) as Hn.
  destruct (binary_normalize prec emax z 0 false) as [[]|[]| |s m e];
    try (vm_compute; discriminate); [congruence|].
  unfold SF2Prim.
  assert (H : Prim2SF (FloatOps.Z.ldexp (of_uint63 (Uint63.of_Z (Z.pos m))) e)
              <> S754_nan).
  { rewrite Z_ldexp_spec, of_uint63_spec.
    apply SFldexp_not_nan, binary_normalize_not_nan. }
  destruct s; [|exact H].
  rewrite opp_spec. now apply SFopp_not_nan.
Qed.

Lemma SFdiv_finite_not_nan x sy my ey :
  x <> S754_nan -> SFdiv prec emax x (S754_finite sy my ey) <> S754_nan.
Proof.
  intros Hx. destruct x as [sx|sx| |sx mx ex]; cbn; try discriminate; [congruence|].
  unfold SFdiv_core_binary.
  set (m' := match _ with Z.pos _ => _ | 0 => _ | Z.neg _ => _ end).
  assert (Hm : 0 <= m').
  { subst m'. destruct (_ - _ - _); try lia. apply Z.shiftl_nonneg. lia. }
  pose proof (Z.div_pos m' (Z.pos my) Hm eq_refl) as Hq.
  unfold Z.div in Hq. destruct (Z.div_eucl m' (Z.pos my)) as [q r].
  now apply binary_round_aux_not_nan.
Qed.

(** The rated values [computeFactors] returns are known: the quotient of
    an integer by 1000 is a number. *)
Lemma thousandth_known z :
  isUnknown (double_of_Z z / double_of_Z 1000)%float = false.
Proof.
  unfold isUnknown. apply is_nan_false_Prim2SF. rewrite div_spec.
  pose proof (double_of_Z_not_nan z) as Hz. apply is_nan_false_Prim2SF in Hz.
  replace (Prim2SF (double_of_Z 1000)) with (S754_finite false 8796093022208000 (-43))
    by (vm_compute; reflexivity).
  now apply SFdiv_finite_not_nan.
Qed.

(** ** Torque targets after the factors were computed *)

Lemma computeFactors_known c f :
  computeFactors c = ok f ->
  isUnknown (Factors.ratedTorque f) = false /\
  isUnknown (Factors.ratedCurrent f) = false.
Proof.
  intros H. apply computeFactors_ok in H.
  destruct H as (_ & _ & _ & _ & _ & _ & (t & _ & ->) & (i & _ & ->) & _).
  split; apply thousandth_known.
Qed.

(** X14: once [setMotorParameters] has returned, or [process] has reported the
    FACTORS group, the rated torque and the rated current of the cached
    factors are known, whatever raw values the drive reported, and
    [setTorqueTarget] no longer throws its precondition error, for any
    target. *)
Theorem setTorqueTarget_usable_after_factors c c' :
  factor_objects_present c ->
  (exists p, setMotorParameters c p = ok c') \/
  (engine_keeps_objects /\
   exists msg r, process c msg = ok (c', r) /\
                 factors_updated (updatedObjects r) = true) ->
  isUnknown (Factors.ratedTorque (getFactors c')) = false /\
  isUnknown (Factors.ratedCurrent (getFactors c')) = false /\
  forall target, setTorqueTarget c' target <> throw LogicError.
Proof.
  intros Hinv Hc'.
  assert (Hf : computeFactors c' = ok (mFactors c')).
  { destruct Hc' as [[p Hset]|(Hkeep & msg & r & H & Hu)].
    - now apply (setMotorParameters_recomputes c p c' Hinv Hset).
    - pose proof (factor_objects_present_engine c msg Hkeep Hinv) as Hinv1.
      pose proof (process_factors_updated _ _ _ _ H Hu) as Hset.
      now apply (setMotorParameters_recomputes _ _ _ Hinv1 Hset). }
  apply computeFactors_known in Hf as [Htorque Hcurrent].
  split; [exact Htorque|]. split; [exact Hcurrent|].
  intros target. unfold setTorqueTarget.
  change (getFactors c') with (mFactors c') in Htorque. rewrite Htorque.
  destruct (_ || _); [discriminate|].
  unfold double_to_int. destruct (trunc _) as [z|]; [|discriminate].
  destruct (in_range I16 z); discriminate.
Qed.

Lemma SFcompare_nan_r s : SFcompare s S754_nan = None.
Proof. now destruct s. Qed.

Lemma ltb_nan_l x y : is_nan x = true -> (x <? y)%float = false.
Proof.
  intros H. apply is_nan_Prim2SF in H. rewrite ltb_spec, H. reflexivity.
Qed.

Lemma ltb_nan_r x y : is_nan y = true -> (x <? y)%float = false.
Proof.
  intros H. apply is_nan_Prim2SF in H. rewrite ltb_spec, H.
  unfold SFltb. now rewrite SFcompare_nan_r.
Qed.

Lemma div_nan_l x y : is_nan x = true -> is_nan (x / y)%float = true.
Proof.
  intros H. apply is_nan_Prim2SF in H. apply is_nan_Prim2SF.
  rewrite div_spec, H. reflexivity.
Qed.

Lemma mul_nan_l x y : is_nan x = true -> is_nan (x * y)%float = true.
Proof.
  intros H. apply is_nan_Prim2SF in H. apply is_nan_Prim2SF.
  rewrite mul_spec, H. reflexivity.
Qed.

Lemma trunc_nan x : is_nan x = true -> trunc x = None.
Proof.
  intros H. apply is_nan_Prim2SF in H. unfold trunc. now rewrite H.
Qed.

(** X15: a scaled target that is not a number passes the range check of
    [setTorqueTarget], because both comparisons are false, and reaches the
    cast to [int16_t], which is undefined for it; a target that is not a
    number scales to such a value. *)
Theorem setTorqueTarget_not_a_number c target :
  isUnknown (Factors.ratedTorque (mFactors c)) = false ->
  let canopen_target :=
    (target / Factors.ratedTorque (mFactors c) * double_of_Z 1000)%float in
  (is_nan target = true -> is_nan canopen_target = true) /\
  (is_nan canopen_target = true ->
   setTorqueTarget c target = throw UndefinedBehaviour).
Proof.
  intros Hknown canopen_target. split.
  - intros H. now apply mul_nan_l, div_nan_l.
  - intros H. unfold setTorqueTarget. rewrite Hknown. fold canopen_target.
    rewrite (ltb_nan_l _ _ H), (ltb_nan_r _ _ H). cbn [orb].
    unfold double_to_int. now rewrite (trunc_nan _ H).
Qed.

End More.

(** * The string tables *)

Section Tables.
Import Main.
Context {T : Type} `{EqDecision T}.

Lemma toString_rows (conversions : list (STRINGS T)) v n :
  toString conversions v = ok n ->
  In n (map name (rows conversions)) /\ n <> EmptyString.
Proof.
  induction conversions as [|conv rest IH]; cbn; [discriminate|].
  destruct (String.eqb (name conv) EmptyString) eqn:Hend; [discriminate|].
  destruct (bool_decide (value conv = v)).
  - intros [= <-]. split; [now left|]. now apply String.eqb_neq.
  - intros H. apply IH in H as [Hin Hne]. split; [now right | exact Hne].
Qed.

Lemma fromString_rows (conversions : list (STRINGS T)) n v :
  fromString conversions n = ok v ->
  In v (map value (rows conversions)) /\ n <> EmptyString.
Proof.
  induction conversions as [|conv rest IH]; cbn; [discriminate|].
  destruct (String.eqb (name conv) EmptyString) eqn:Hend; [discriminate|].
  destruct (String.eqb (name conv) n) eqn:Hn.
  - intros [= <-]. split; [now left|].
    apply String.eqb_eq in Hn as <-. now apply String.eqb_neq.
  - intros H. apply IH in H as [Hin Hne]. split; [now right | exact Hne].
Qed.

(** X16: on a table whose rows have pairwise distinct names and pairwise
    distinct values, [toString] and [fromString] are inverse of each other:
    a value is printed as a name exactly when the name is parsed as that
    value. *)
Theorem toString_fromString_inverse (conversions : list (STRINGS T)) v n :
  NoDup (map name (rows conversions)) ->
  NoDup (map value (rows conversions)) ->
  toString conversions v = ok n <-> fromString conversions n = ok v.
Proof.
  induction conversions as [|conv rest IH]; cbn; [intros _ _; split; discriminate|].
  destruct (String.eqb (name conv) EmptyString) eqn:Hend;
    [intros _ _; split; discriminate|].
  cbn. intros Hnames Hvalues.
  apply NoDup_cons in Hnames as [Hname Hnames].
  apply NoDup_cons in Hvalues as [Hvalue Hvalues].
  specialize (IH Hnames Hvalues).
  destruct (bool_decide (value conv = v)) eqn:Hv;
    destruct (String.eqb (name conv) n) eqn:Hn.
  - apply bool_decide_eq_true in Hv. apply String.eqb_eq in Hn.
    subst. tauto.
  - apply bool_decide_eq_true in Hv. apply String.eqb_neq in Hn. subst.
    split; [intros [= Heq]; contradiction|]. intros H. exfalso.
    apply fromString_rows in H as [Hin _]. apply Hvalue, list_elem_of_In, Hin.
  - apply bool_decide_eq_false in Hv. apply String.eqb_eq in Hn. subst.
    split; [|intros [= Heq]; contradiction]. intros H. exfalso.
    apply toString_rows in H as [Hin _]. apply Hname, list_elem_of_In, Hin.
  - exact IH.
Qed.

(** X17: on a table that ends with a row of empty name, neither function runs
    past the end, the empty name is refused as an unknown string (the value
    of the terminating row is never returned for it), and no value is
    printed as the empty name. *)
Theorem terminated_table (conversions : list (STRINGS T)) :
  terminated conversions = true ->
  fromString conversions EmptyString = throw InvalidArgument /\
  (forall n, fromString conversions n <> throw UndefinedBehaviour) /\
  (forall v, toString conversions v <> throw UndefinedBehaviour) /\
  (forall v, toString conversions v <> ok EmptyString).
Proof.
  induction conversions as [|conv rest IH]; cbn; [discriminate|].
  destruct (String.eqb (name conv) EmptyString) eqn:Hend.
  - intros _. repeat split; discriminate.
  - intros Hterm. destruct (IH Hterm) as (He & Hf & Ht & Hn).
    split; [exact He|].
    split; [|split].
    + intros n. destruct (String.eqb (name conv) n); [discriminate | apply Hf].
    + intros v. destruct (bool_decide (value conv = v)); [discriminate | apply Ht].
    + intros v. destruct (bool_decide (value conv = v)); [|apply Hn].
      apply String.eqb_neq in Hend. intros [= Heq]. contradiction.
Qed.

End Tables.

(** * Runs of the further properties *)

Section MoreRuns.
Import DS402.
#[local] Existing Instance Main.State_eq_dec.
#[local] Existing Instance Main.Transition_eq_dec.
#[local] Existing Instance Main.OPERATION_MODES_eq_dec.

Lemma labels_distinct : NoDup (map objectFullId SDO_UPDATE_CASES).
Proof. apply (bool_decide_unpack _). vm_compute. reflexivity. Qed.

Lemma bus_engine_keeps : engine_keeps_objects (eng := Bus.engine).
Proof.
  intros sm [msg|req] k Hk; [|exact Hk].
  destruct msg; cbn; try exact Hk.
  destruct (decide ((id, subId) = k)) as [->|Hne].
  - rewrite lookup_insert_eq. eauto.
  - now rewrite lookup_insert_ne.
Qed.

(** The refresh of the encoder resolution reports the FACTORS bit, bit 2. *)
Lemma process_reports_groups_run :
  Z.testbit (updatedObjects (snd refreshed)) 2 = true <->
  (mode (snd (sm_process (mCanOpen configured) refresh)) = PROCESSED_HEARTBEAT /\
   Z.testbit (wrap U64 Heartbeat_UPDATE_ID) 2 = true) \/
  (exists object,
     In object (updated (snd (sm_process (mCanOpen configured) refresh))) /\
     Z.testbit (object_groups object) 2 = true).
Proof.
  apply (process_reports_groups (eng := engine) configured refresh
           (fst refreshed) (snd refreshed) 2).
  - vm_compute. reflexivity.
  - vm_compute. reflexivity.
Defined.

(** The rated torque reports the FACTORS group; the torque target, which
    is no label, reports nothing. *)
Lemma object_groups_of_label_run :
  object_groups (key MotorRatedTorque) = FACTORS /\
  forall update, sdo_update_case update (key TargetTorque) = update.
Proof.
  destruct (object_groups_of_label (cat := catalogue) labels_distinct)
    as [Hlabel Hother].
  split.
  - apply (Hlabel MotorRatedTorque). vm_compute. tauto.
  - apply Hother. intros o Ho. vm_compute in Ho.
    repeat (destruct Ho as [<-|Ho]; [vm_compute; discriminate|]).
    destruct Ho.
Defined.

(** An acknowledgment moves nothing but the engine. *)
Lemma process_frame_run :
  let result :=
    get (configured, UpdatedObjects 0)
      (process (eng := engine) configured torque_written) in
  process (eng := engine) configured torque_written = ok result /\
  mZeroPosition (fst result) = mZeroPosition configured /\
  mMotorParameters (fst result) = mMotorParameters configured /\
  getFactors (fst result) = getFactors configured.
Proof.
  intros result.
  assert (H : process (eng := engine) configured torque_written = ok result)
    by (vm_compute; reflexivity).
  split; [exact H|].
  destruct (process_frame (eng := engine) configured torque_written
              (fst result) (snd result))
    as (Hz & _ & Hp & Hsame).
  - rewrite H. now destruct result.
  - split; [exact Hz|]. split; [exact Hp|].
    rewrite Hsame by (vm_compute; reflexivity).
    apply mFactors_with_mCanOpen.
Defined.

(** The overrides for the 4096-tick encoder, applied twice. *)
Lemma setMotorParameters_idempotent_run :
  let c := get (new_Controller 1)
             (feed (new_Controller 1) [reply MotorRatedCurrent 2000]) in
  let c' := get c (setMotorParameters c parameters) in
  setMotorParameters c' parameters = ok c'.
Proof.
  intros c c'.
  apply (setMotorParameters_idempotent c parameters c').
  - exact keys_distinct.
  - unfold factor_objects_present, factor_objects.
    repeat apply Forall_cons_2; try apply Forall_nil_2; vm_compute; eauto.
  - vm_compute. reflexivity.
Defined.

(** Targets with a position and a speed leave the rated torque object and
    the factors alone. *)
Lemma setControlTargets_frame_run :
  exists c',
    setControlTargets (inv := Bus.inverse) Bus.fresh Bus.targets = ok c' /\
    getRaw c' MotorRatedTorque = getRaw Bus.fresh MotorRatedTorque /\
    getFactors c' = getFactors Bus.fresh.
Proof.
  destruct (setControlTargets (inv := Bus.inverse) Bus.fresh Bus.targets)
    as [e|c'] eqn:H; [vm_compute in H; discriminate|].
  exists c'. split; [reflexivity|].
  destruct (setControlTargets_frame (inv := Bus.inverse) Bus.fresh Bus.targets c' H)
    as (Hd & _ & Hf & _).
  split; [|exact Hf].
  unfold getRaw, sm_get. rewrite Hd; [reflexivity|].
  vm_compute. intros [Hk|[Hk|[Hk|[]]]]; discriminate.
Defined.

(** A controller that processed a reply and staged targets still computes
    its factors. *)
Lemma run_computeFactors_run :
  exists c f,
    setControlTargets (inv := Bus.inverse) Bus.fresh Bus.targets = ok c /\
    computeFactors c = ok f.
Proof.
  destruct (setControlTargets (inv := Bus.inverse) Bus.fresh Bus.targets)
    as [e|c] eqn:H; [vm_compute in H; discriminate|].
  destruct (run_computeFactors (eng := Bus.engine) (bld := Bus.builders)
              (inv := Bus.inverse) (grp := Bus.group) c bus_engine_keeps)
    as [_ [f Hf]].
  - exact (run_setControlTargets Bus.fresh Bus.targets c (run_new 1) H).
  - exists c, f. split; [reflexivity | exact Hf].
Defined.

(** A current of 70000 written into the 16-bit object wraps; 700 does not. *)
Lemma setRaw_getRaw_run :
  getRaw (setRaw CurrentActualValue 70000 (new_Controller 1)) CurrentActualValue
  = ok 4464 /\
  getRaw (setRaw CurrentActualValue 700 (new_Controller 1)) CurrentActualValue
  = ok 700.
Proof.
  split.
  - exact (proj1 (setRaw_getRaw (new_Controller 1) CurrentActualValue 70000)).
  - apply (setRaw_getRaw (new_Controller 1) CurrentActualValue 700). reflexivity.
Defined.

(** Zeroing at the raw position 1000 makes the reported position 0. *)
Lemma getJointState_at_zero_run :
  exists st,
    getJointState (setZeroPosition measured 1000) JOINT_POSITION = ok st /\
    JointState.position st = 0%float.
Proof.
  destruct (getJointState (setZeroPosition measured 1000) JOINT_POSITION)
    as [e|st] eqn:H; [vm_compute in H; discriminate|].
  exists st. split; [reflexivity|].
  pose proof (getJointState_at_zero measured 1000 JOINT_POSITION st) as Hzero.
  assert (Hst : Factors.rawToEncoder (mFactors measured) 0 = ok (JointState.position st)).
  { apply Hzero; [vm_compute; reflexivity | vm_compute; reflexivity | exact H]. }
  assert (E : Factors.rawToEncoder (mFactors measured) 0 = ok 0%float)
    by (vm_compute; reflexivity).
  rewrite E in Hst. injection Hst as Hst. now symmetry.
Defined.

(** The limits of the measured controller. *)
Lemma getJointLimits_symmetric_run :
  exists r,
    getJointLimits measured = ok r /\
    JointState.effort (range_min r) = (- JointState.effort (range_max r))%float /\
    JointState.raw (range_min r) = (- JointState.raw (range_max r))%float.
Proof.
  destruct (getJointLimits measured) as [e|r] eqn:H; [vm_compute in H; discriminate|].
  exists r. split; [reflexivity|].
  destruct (getJointLimits_symmetric measured r H) as (_ & He & Hr & _).
  exact (conj He Hr).
Defined.

(** The constructor wrote eight of the ten objects [queryFactors] asks
    for; with the two velocity factors the factors are computed. *)
Lemma queryFactors_covers_computeFactors_run :
  exists f, computeFactors Bus.answered = ok f.
Proof.
  apply (proj2 (queryFactors_covers_computeFactors (eng := Bus.engine)
                  (bld := Bus.builders) Bus.answered)).
  intros o Ho. vm_compute in Ho.
  repeat (destruct Ho as [<-|Ho]; [vm_compute; eauto|]). destruct Ho.
Defined.

(** With the six limits read and nothing else, [getJointLimits] does not
    miss a value, and [getJointState] would. *)
Lemma queries_cover_getters_run :
  getJointLimits Bus.answered <> throw ObjectNotRead /\
  getJointState Bus.answered JOINT_POSITION = throw ObjectNotRead.
Proof.
  split; [|vm_compute; reflexivity].
  apply (proj2 (proj2 (proj2 (queries_cover_getters (eng := Bus.engine)
                                (bld := Bus.builders) Bus.answered)))).
  intros o Ho. vm_compute in Ho.
  repeat (destruct Ho as [<-|Ho]; [vm_compute; eauto|]). destruct Ho.
Defined.

(** Position and current requested: one mapping with both, none for the
    second PDO. *)
Lemma jointStateMappings_requested_run :
  fst (jointStateMappings (grp := Bus.group) 0x28)
  ++ snd (jointStateMappings (grp := Bus.group) 0x28)
  = [mapping_entry PositionActualInternalValue; mapping_entry CurrentActualValue] /\
  snd (jointStateMappings (grp := Bus.group) 0x28) = [].
Proof.
  destruct (jointStateMappings_requested (grp := Bus.group) 0x28)
    as (Hall & _ & Hsecond); try reflexivity.
  split; [exact Hall|]. apply Hsecond. vm_compute. discriminate.
Defined.


(** After the refresh the torque target 0 is no longer refused for want of
    a rated torque. *)
Lemma setTorqueTarget_usable_after_factors_run :
  isUnknown (Factors.ratedTorque (getFactors (fst refreshed))) = false /\
  setTorqueTarget (fst refreshed) 0%float <> throw LogicError.
Proof.
  destruct (setTorqueTarget_usable_after_factors (eng := engine)
              configured (fst refreshed) configured_present)
    as (Hknown & _ & Husable).
  - right. split; [exact engine_keeps|].
    exists refresh, (snd refreshed). split; vm_compute; reflexivity.
  - split; [exact Hknown | apply Husable].
Defined.

(** A target that is not a number, with a rated torque of 1. *)
Lemma setTorqueTarget_not_a_number_run :
  setTorqueTarget rated nan = throw UndefinedBehaviour.
Proof.
  destruct (setTorqueTarget_not_a_number (eng := engine) rated nan) as [Hnan Hcast].
  - vm_compute. reflexivity.
  - apply Hcast, Hnan. reflexivity.
Defined.

(** The three tables of the tool. *)
Lemma toString_fromString_inverse_run :
  (Main.toString Main.StateStrings Main.FAULT = ok "FAULT"%string <->
   Main.fromString Main.StateStrings "FAULT" = ok Main.FAULT) /\
  (Main.toString Main.TransitionStrings Main.T_QUICK_STOP = ok "QUICK_STOP"%string <->
   Main.fromString Main.TransitionStrings "QUICK_STOP" = ok Main.T_QUICK_STOP) /\
  (Main.toString Main.OperationModeStrings Main.OPERATION_MODE_HOMING
   = ok "HOMING"%string <->
   Main.fromString Main.OperationModeStrings "HOMING" = ok Main.OPERATION_MODE_HOMING).
Proof.
  split; [|split]; apply toString_fromString_inverse;
    apply (bool_decide_unpack _); vm_compute; reflexivity.
Defined.

Lemma terminated_table_run :
  Main.fromString Main.TransitionStrings EmptyString = throw InvalidArgument /\
  forall v, Main.toString Main.StateStrings v <> ok EmptyString.
Proof.
  split.
  - apply (terminated_table Main.TransitionStrings). reflexivity.
  - apply (terminated_table Main.StateStrings). reflexivity.
Defined.

End MoreRuns.
